(** * RoleService: channel-scoped roles and permissions

    A shallow embedding of
    [packages/core/src/service/services/role.service.ts].

    The service is a class whose methods read and write a database through
    a TypeORM connection and throw exceptions.  Here the database is an
    explicit [Store]; a method is a function from a store to a result (an
    error or a value) and the store it leaves behind.  An exception keeps
    the writes made before it was thrown, as in the source, where nothing is
    rolled back.

    [findAll] and [assignRoleToChannel] only forward to the list query
    builder and to the channel service; they are left out. *)

From Stdlib Require Import String List ZArith Bool.
Import ListNotations.

Local Open Scope string_scope.
Local Open Scope list_scope.

(** ** Identifiers *)

(** [ID] of [shared-types] is [string | number]. *)
Inductive ID : Type :=
| IdStr (s : string)
| IdNum (n : Z).

(** JavaScript truthiness of an identifier: the empty string and the number
    zero are falsy, as [undefined] and [null] are (those two are [None]
    wherever an identifier is optional). *)
Definition truthy (i : ID) : bool :=
  match i with
  | IdStr s => negb (s =? "")
  | IdNum n => negb (n =? 0)%Z
  end.

Definition truthyId (o : option ID) : option ID :=
  match o with
  | Some i => if truthy i then Some i else None
  | None => None
  end.

(** Modelled from the spec: [idsAreEqual] of [common/utils] is not among the
    sources.  The spec takes identifiers as opaque values; two identifiers
    are equal when they are the same value. *)
Definition idsAreEqual (a b : ID) : bool :=
  match a, b with
  | IdStr s, IdStr t => s =? t
  | IdNum n, IdNum m => (n =? m)%Z
  | _, _ => false
  end.

(** ** Entities *)

Definition Permission : Type := string.

(** Modelled from the spec: the enum [Permission] of [generated-types] is
    not among the sources.  The spec names the three members the service
    refers to; a member of a string enum has its name as value.  The whole
    list of values, [Object.values(Permission)], is a parameter of the
    service below. *)
Definition Permission_Authenticated : Permission := "Authenticated".
Definition Permission_Owner : Permission := "Owner".
Definition Permission_CreateAdministrator : Permission := "CreateAdministrator".

Record Channel : Type := mkChannel {
  channel_id : ID;
  channel_code : string
}.

(** A [Role] with its [channels] relation loaded.  [role_id] is [None] for
    an entity built with [new Role(...)] that was never saved. *)
Record Role : Type := mkRole {
  role_id : option ID;
  role_code : string;
  role_description : string;
  role_permissions : list Permission;
  role_channels : list Channel
}.

(** A row of the user table: the roles of a user are references. *)
Record UserRow : Type := mkUserRow {
  userRow_id : ID;
  userRow_roleIds : list ID
}.

(** A [User] loaded with [relations: ['roles', 'roles.channels']]. *)
Record User : Type := mkUser {
  user_id : ID;
  user_roles : list Role
}.

Record RequestContext : Type := mkRequestContext {
  ctx_activeUserId : option ID;
  ctx_channel : Channel
}.

Record CreateRoleInput : Type := mkCreateRoleInput {
  create_channelId : option ID;
  create_code : string;
  create_description : string;
  create_permissions : list Permission
}.

(** An optional field is [None] when the input leaves it out.  A field
    given as [null] is not told apart from one left out. *)
Record UpdateRoleInput : Type := mkUpdateRoleInput {
  update_id : ID;
  update_code : option string;
  update_description : option string;
  update_permissions : option (list Permission)
}.

Inductive Error : Type :=
| EntityNotFoundError (entityName : string) (id : ID)
| ForbiddenError
| InternalServerError (message : string) (roleCode : option string)
| UserInputError (message : string) (permission : Permission).

(** ** The store *)

(** The tables the service reads and writes, the default channel that the
    channel service hands out, the next identifier the database generates,
    and [store_saved], the log of every entity written by a [save]. *)
Record Store : Type := mkStore {
  store_roles : list Role;
  store_users : list UserRow;
  store_channels : list Channel;
  store_defaultChannel : Channel;
  store_nextId : Z;
  store_saved : list Role
}.

(** ** Computations on the store *)

Definition M (A : Type) : Type := Store -> (Error + A) * Store.

Definition ret {A} (a : A) : M A := fun st => (inr a, st).

Definition throw {A} (e : Error) : M A := fun st => (inl e, st).

Definition bind {A B} (m : M A) (k : A -> M B) : M B :=
  fun st =>
    match m st with
    | (inr a, st') => k a st'
    | (inl e, st') => (inl e, st')
    end.

(** [try { m } catch (err) { h err }] *)
Definition tryCatch {A} (m : M A) (h : Error -> M A) : M A :=
  fun st =>
    match m st with
    | (inr a, st') => (inr a, st')
    | (inl e, st') => h e st'
    end.

Definition gets {A} (f : Store -> A) : M A := fun st => (inr (f st), st).

Definition liftE {A} (r : Error + A) : M A := fun st => (r, st).

Declare Scope service_scope.
Delimit Scope service_scope with service.
Notation "x <- m ;; k" := (bind m (fun x => k))
  (at level 61, m at next level, right associativity) : service_scope.
Notation "m ;; k" := (bind m (fun _ => k))
  (at level 61, right associativity) : service_scope.
Local Open Scope service_scope.

(** ** Helpers of the code base that the service imports *)

(** [Array.prototype.includes] on strings. *)
Definition includes (l : list string) (x : string) : bool :=
  existsb (String.eqb x) l.

(** Modelled from the spec: [unique] of [common/lib/unique] is not among the
    sources.  The spec has it remove duplicates and keep the order of first
    occurrence. *)
Fixpoint unique (l : list string) : list string :=
  match l with
  | [] => []
  | x :: t => x :: filter (fun y => negb (String.eqb x y)) (unique t)
  end.

(** The object literal handed to [patchEntity] in [update]. *)
Record RolePatch : Type := mkRolePatch {
  patch_code : option string;
  patch_description : option string;
  patch_permissions : option (list Permission)
}.

Definition orElse {A} (o : option A) (d : A) : A :=
  match o with Some a => a | None => d end.

(** Modelled from the spec: [patchEntity] of [helpers/utils/patch-entity] is
    not among the sources.  The spec has it overwrite the fields present in
    the input and leave the others untouched. *)
Definition patchEntity (role : Role) (input : RolePatch) : Role :=
  {| role_id := role_id role;
     role_code := orElse (patch_code input) (role_code role);
     role_description := orElse (patch_description input) (role_description role);
     role_permissions := orElse (patch_permissions input) (role_permissions role);
     role_channels := role_channels role |}.

Record UserChannelPermissions : Type := mkUserChannelPermissions {
  ucp_id : ID;
  ucp_permissions : list Permission
}.

(** Adds the permissions [perms] to the entry of channel [cid], creating the
    entry when the channel was not seen before. *)
Fixpoint addChannelPermissions (cid : ID) (perms : list Permission)
    (acc : list UserChannelPermissions) : list UserChannelPermissions :=
  match acc with
  | [] => [ {| ucp_id := cid; ucp_permissions := unique perms |} ]
  | e :: rest =>
      if idsAreEqual (ucp_id e) cid
      then {| ucp_id := ucp_id e;
              ucp_permissions := unique (ucp_permissions e ++ perms) |} :: rest
      else e :: addChannelPermissions cid perms rest
  end.

Definition addRolePermissions (acc : list UserChannelPermissions) (role : Role)
    : list UserChannelPermissions :=
  fold_left (fun a ch => addChannelPermissions (channel_id ch) (role_permissions role) a)
            (role_channels role) acc.

(** Modelled from the spec: [getUserChannelsPermissions] of
    [helpers/utils/get-user-channels-permissions] is not among the sources.
    The spec has it compute, for a user loaded with roles and their
    channels, one entry per channel that holds the union of the permissions
    of every role of the user that includes the channel. *)
Definition getUserChannelsPermissions (user : User) : list UserChannelPermissions :=
  fold_left addRolePermissions (user_roles user) [].

(** ** The storage layer *)

(** The row has identifier [i]. *)
Definition hasId (i : ID) (r : Role) : bool :=
  match role_id r with
  | Some j => idsAreEqual j i
  | None => false
  end.

(** The row with identifier [i] is replaced by [r]; [r] is added when there
    is no such row. *)
Fixpoint upsertRole (i : ID) (r : Role) (rows : list Role) : list Role :=
  match rows with
  | [] => [r]
  | x :: t => if hasId i x then r :: t else x :: upsertRole i r t
  end.

Definition withId (r : Role) (i : ID) : Role :=
  {| role_id := Some i;
     role_code := role_code r;
     role_description := role_description r;
     role_permissions := role_permissions r;
     role_channels := role_channels r |}.

(** Modelled from the spec: [save] of the TypeORM connection is outside the
    repository.  The spec has it create or update by identifier and return
    the persisted entity: an entity without identifier is inserted under the
    next generated one, an entity with an identifier takes the place of the
    row that has it. *)
Definition save (r : Role) : M Role :=
  fun st =>
    match role_id r with
    | Some i =>
        (inr r,
         {| store_roles := upsertRole i r (store_roles st);
            store_users := store_users st;
            store_channels := store_channels st;
            store_defaultChannel := store_defaultChannel st;
            store_nextId := store_nextId st;
            store_saved := store_saved st ++ [r] |})
    | None =>
        let r' := withId r (IdNum (store_nextId st)) in
        (inr r',
         {| store_roles := store_roles st ++ [r'];
            store_users := store_users st;
            store_channels := store_channels st;
            store_defaultChannel := store_defaultChannel st;
            store_nextId := (store_nextId st + 1)%Z;
            store_saved := store_saved st ++ [r'] |})
    end.

(** The roles a user row refers to, each with its channels. *)
Definition loadUser (st : Store) (row : UserRow) : User :=
  {| user_id := userRow_id row;
     user_roles :=
       filter (fun r => existsb (fun i => hasId i r) (userRow_roleIds row))
              (store_roles st) |}.

Definition findUser (userId : ID) (st : Store) : option User :=
  option_map (loadUser st)
    (find (fun u => idsAreEqual (userRow_id u) userId) (store_users st)).

Definition findChannel (channelId : ID) (st : Store) : option Channel :=
  find (fun c => idsAreEqual (channel_id c) channelId) (store_channels st).

(** [getEntityOrThrow(this.connection, User, userId, { relations })] *)
Definition getEntityOrThrow_User (userId : ID) : M User :=
  user <- gets (findUser userId) ;;
  match user with
  | Some u => ret u
  | None => throw (EntityNotFoundError "User" userId)
  end.

(** [getEntityOrThrow(this.connection, Channel, channelId)] *)
Definition getEntityOrThrow_Channel (channelId : ID) : M Channel :=
  channel <- gets (findChannel channelId) ;;
  match channel with
  | Some c => ret c
  | None => throw (EntityNotFoundError "Channel" channelId)
  end.

(** [assertFound] of [common/utils]: the re-read entity, or an internal
    error when it is gone. *)
Definition assertFound {A} (m : M (option A)) : M A :=
  v <- m ;;
  match v with
  | Some a => ret a
  | None => throw (InternalServerError "error.entity-not-found" None)
  end.

(** [this.channelService.getDefaultChannel()] *)
Definition getDefaultChannel : M Channel := gets store_defaultChannel.

(** ** Sample data *)

(** A catalog, the constants, stores and inputs on which the service is run
    at the end of the file. *)
Definition sampleCatalog : list Permission :=
  ["Authenticated"; "Owner"; "CreateAdministrator"; "ReadCatalog";
   "UpdateCatalog"].

Definition superAdminCode : string := "__super_admin_role__".
Definition superAdminDescription : string := "SuperAdmin".
Definition customerCode : string := "__customer_role__".
Definition customerDescription : string := "Customer".

Definition defaultChannel : Channel :=
  {| channel_id := IdNum 1; channel_code := "__default_channel__" |}.

Definition secondChannel : Channel :=
  {| channel_id := IdNum 2; channel_code := "second" |}.

Definition superAdminRole : Role :=
  {| role_id := Some (IdNum 1);
     role_code := superAdminCode;
     role_description := superAdminDescription;
     role_permissions :=
       ["Authenticated"; "CreateAdministrator"; "ReadCatalog"; "UpdateCatalog"];
     role_channels := [defaultChannel] |}.

Definition customerRole : Role :=
  {| role_id := Some (IdNum 2);
     role_code := customerCode;
     role_description := customerDescription;
     role_permissions := ["Authenticated"];
     role_channels := [defaultChannel] |}.

Definition editorRole : Role :=
  {| role_id := Some (IdNum 3);
     role_code := "editor";
     role_description := "Editor";
     role_permissions := ["Authenticated"; "ReadCatalog"];
     role_channels := [defaultChannel] |}.

(** User 1 is an administrator, user 2 an editor. *)
Definition sampleStore : Store :=
  {| store_roles := [superAdminRole; customerRole; editorRole];
     store_users :=
       [ {| userRow_id := IdNum 1; userRow_roleIds := [IdNum 1] |};
         {| userRow_id := IdNum 2; userRow_roleIds := [IdNum 3] |} ];
     store_channels := [defaultChannel; secondChannel];
     store_defaultChannel := defaultChannel;
     store_nextId := 4;
     store_saved := [] |}.

Definition emptyStore : Store :=
  {| store_roles := [];
     store_users := [];
     store_channels := [defaultChannel];
     store_defaultChannel := defaultChannel;
     store_nextId := 1;
     store_saved := [] |}.

(** A SuperAdmin role written under an older catalog: it has a permission
    that the catalog no longer knows and lacks the newer ones. *)
Definition legacySuperAdminRole : Role :=
  {| role_id := Some (IdNum 1);
     role_code := superAdminCode;
     role_description := superAdminDescription;
     role_permissions := ["Authenticated"; "LegacyPermission"];
     role_channels := [defaultChannel] |}.

Definition legacyStore : Store :=
  {| store_roles := [legacySuperAdminRole];
     store_users := [];
     store_channels := [defaultChannel];
     store_defaultChannel := defaultChannel;
     store_nextId := 2;
     store_saved := [] |}.

Definition anonymousContext : RequestContext :=
  {| ctx_activeUserId := None; ctx_channel := defaultChannel |}.

Definition adminContext : RequestContext :=
  {| ctx_activeUserId := Some (IdNum 1); ctx_channel := defaultChannel |}.



Definition editorUpdate : UpdateRoleInput :=
  {| update_id := IdNum 3;
     update_code := None;
     update_description := Some "Edits";
     update_permissions := Some ["UpdateCatalog"; "UpdateCatalog"] |}.

Definition createOnMissingChannel : CreateRoleInput :=
  {| create_channelId := Some (IdNum 99);
     create_code := "catalog-reader";
     create_description := "Reads the catalog";
     create_permissions := ["ReadCatalog"] |}.

Definition createOnSecondChannel : CreateRoleInput :=
  {| create_channelId := Some (IdNum 2);
     create_code := "catalog-reader";
     create_description := "Reads the catalog";
     create_permissions := ["ReadCatalog"] |}.

Definition createOwnerRole : CreateRoleInput :=
  {| create_channelId := None;
     create_code := "owner-role";
     create_description := "Carries Owner";
     create_permissions := ["Owner"; "ReadCatalog"] |}.

(** A store in which channel 0 and user 0 exist; user 0 is an
    administrator of both channels. *)
Definition zeroChannel : Channel :=
  {| channel_id := IdNum 0; channel_code := "zero" |}.

Definition zeroAdminRole : Role :=
  {| role_id := Some (IdNum 5);
     role_code := "zero-admin";
     role_description := "Administrator";
     role_permissions := ["Authenticated"; "CreateAdministrator"];
     role_channels := [zeroChannel; defaultChannel] |}.

Definition zeroStore : Store :=
  {| store_roles := [zeroAdminRole];
     store_users := [ {| userRow_id := IdNum 0; userRow_roleIds := [IdNum 5] |} ];
     store_channels := [zeroChannel; defaultChannel];
     store_defaultChannel := defaultChannel;
     store_nextId := 6;
     store_saved := [] |}.

Definition zeroContext : RequestContext :=
  {| ctx_activeUserId := Some (IdNum 0); ctx_channel := defaultChannel |}.

Definition createOnChannelZero : CreateRoleInput :=
  {| create_channelId := Some (IdNum 0);
     create_code := "catalog-reader";
     create_description := "Reads the catalog";
     create_permissions := ["ReadCatalog"] |}.

Definition createReader : CreateRoleInput :=
  {| create_channelId := None;
     create_code := "catalog-reader";
     create_description := "Reads the catalog";
     create_permissions := ["ReadCatalog"] |}.

Definition editorContext : RequestContext :=
  {| ctx_activeUserId := Some (IdNum 2); ctx_channel := defaultChannel |}.

Definition strangerContext : RequestContext :=
  {| ctx_activeUserId := Some (IdNum 42); ctx_channel := defaultChannel |}.

Definition missingUpdate : UpdateRoleInput :=
  {| update_id := IdNum 77;
     update_code := Some "ghost";
     update_description := None;
     update_permissions := Some ["ReadCatalog"] |}.

(** The sample store after the catalog grew: the SuperAdmin role is the
    one of the older catalog. *)
Definition agedStore : Store :=
  {| store_roles := [legacySuperAdminRole; customerRole; editorRole];
     store_users :=
       [ {| userRow_id := IdNum 1; userRow_roleIds := [IdNum 1] |};
         {| userRow_id := IdNum 2; userRow_roleIds := [IdNum 3] |} ];
     store_channels := [defaultChannel; secondChannel];
     store_defaultChannel := defaultChannel;
     store_nextId := 4;
     store_saved := [] |}.

(** ** The service *)

Section RoleService.

(** [Object.values(Permission)] and the four constants of
    [shared-constants], none of which is among the sources. *)
Variable Permission_values : list Permission.
Variable SUPER_ADMIN_ROLE_CODE : string.
Variable SUPER_ADMIN_ROLE_DESCRIPTION : string.
Variable CUSTOMER_ROLE_CODE : string.
Variable CUSTOMER_ROLE_DESCRIPTION : string.

Definition findOne (roleId : ID) : M (option Role) :=
  gets (fun st => find (hasId roleId) (store_roles st)).

Definition getRoleByCode (code : string) : M (option Role) :=
  gets (fun st => find (fun r => role_code r =? code) (store_roles st)).

Definition getSuperAdminRole : M Role :=
  role <- getRoleByCode SUPER_ADMIN_ROLE_CODE ;;
  match role with
  | None => throw (InternalServerError "error.super-admin-role-not-found" None)
  | Some r => ret r
  end.

Definition getCustomerRole : M Role :=
  role <- getRoleByCode CUSTOMER_ROLE_CODE ;;
  match role with
  | None => throw (InternalServerError "error.customer-role-not-found" None)
  | Some r => ret r
  end.

Definition getAllPermissions : list string := Permission_values.

Definition userHasPermissionOnChannel (userId channelId : ID)
    (permission : Permission) : M bool :=
  user <- getEntityOrThrow_User userId ;;
  let userChannels := getUserChannelsPermissions user in
  match find (fun c => idsAreEqual (ucp_id c) channelId) userChannels with
  | None => ret false
  | Some channel => ret (includes (ucp_permissions channel) permission)
  end.

(** The loop of [checkPermissionsAreValid]: the first permission outside
    the catalog is thrown. *)
Fixpoint checkEachPermission (allPermissions permissions : list string)
    : Error + unit :=
  match permissions with
  | [] => inr tt
  | permission :: rest =>
      if negb (includes allPermissions permission)
      then inl (UserInputError "error.permission-invalid" permission)
      else checkEachPermission allPermissions rest
  end.

Definition checkPermissionsAreValid (permissions : option (list string))
    : M unit :=
  match permissions with
  | None => ret tt
  | Some ps => liftE (checkEachPermission getAllPermissions ps)
  end.

Definition createRoleForChannel (input : CreateRoleInput) (channel : Channel)
    : M Role :=
  let role :=
    {| role_id := None;
       role_code := create_code input;
       role_description := create_description input;
       role_permissions :=
         unique (Permission_Authenticated :: create_permissions input);
       role_channels := [channel] |} in
  save role.

Definition create (ctx : RequestContext) (input : CreateRoleInput) : M Role :=
  checkPermissionsAreValid (Some (create_permissions input)) ;;
  targetChannel <-
    match truthyId (create_channelId input) with
    | Some channelId => getEntityOrThrow_Channel channelId
    | None => ret (ctx_channel ctx)
    end ;;
  match truthyId (ctx_activeUserId ctx) with
  | None => throw ForbiddenError
  | Some activeUserId =>
      hasPermission <-
        userHasPermissionOnChannel activeUserId (channel_id targetChannel)
          Permission_CreateAdministrator ;;
      if negb hasPermission
      then throw ForbiddenError
      else createRoleForChannel input targetChannel
  end.

Definition update (input : UpdateRoleInput) : M Role :=
  checkPermissionsAreValid (update_permissions input) ;;
  role <- findOne (update_id input) ;;
  match role with
  | None => throw (EntityNotFoundError "Role" (update_id input))
  | Some role =>
      if (role_code role =? SUPER_ADMIN_ROLE_CODE)
         || (role_code role =? CUSTOMER_ROLE_CODE)
      then throw (InternalServerError "error.cannot-modify-role"
                    (Some (role_code role)))
      else
        let updatedRole :=
          patchEntity role
            {| patch_code := update_code input;
               patch_description := update_description input;
               patch_permissions :=
                 match update_permissions input with
                 | Some ps => Some (unique (Permission_Authenticated :: ps))
                 | None => None
                 end |} in
        save updatedRole ;;
        assertFound
          match role_id role with
          | Some i => findOne i
          | None => ret None
          end
  end.

Definition allPermissionsExceptOwner : list Permission :=
  filter (fun p => negb (p =? Permission_Owner)) Permission_values.

Definition withPermissions (r : Role) (ps : list Permission) : Role :=
  {| role_id := role_id r;
     role_code := role_code r;
     role_description := role_description r;
     role_permissions := ps;
     role_channels := role_channels r |}.

Definition ensureSuperAdminRoleExists : M unit :=
  let allPermissions := allPermissionsExceptOwner in
  tryCatch
    (superAdminRole <- getSuperAdminRole ;;
     let hasAllPermissions :=
       forallb (fun permission =>
                  includes (role_permissions superAdminRole) permission)
               allPermissions in
     if negb hasAllPermissions
     then save (withPermissions superAdminRole allPermissions) ;; ret tt
     else ret tt)
    (fun err =>
       defaultChannel <- getDefaultChannel ;;
       createRoleForChannel
         {| create_channelId := None;
            create_code := SUPER_ADMIN_ROLE_CODE;
            create_description := SUPER_ADMIN_ROLE_DESCRIPTION;
            create_permissions := allPermissions |}
         defaultChannel ;;
       ret tt).

Definition ensureCustomerRoleExists : M unit :=
  tryCatch
    (getCustomerRole ;; ret tt)
    (fun err =>
       defaultChannel <- getDefaultChannel ;;
       createRoleForChannel
         {| create_channelId := None;
            create_code := CUSTOMER_ROLE_CODE;
            create_description := CUSTOMER_ROLE_DESCRIPTION;
            create_permissions := [Permission_Authenticated] |}
         defaultChannel ;;
       ret tt).

Definition initRoles : M unit :=
  ensureSuperAdminRoleExists ;;
  ensureCustomerRoleExists.

(** ** Vocabulary of the properties *)

(** What [userHasPermissionOnChannel] reads off the projection: the
    permissions of the first entry for channel [c], none when there is no
    entry. *)
Definition permissionsOn (c : ID) (acc : list UserChannelPermissions)
    : list Permission :=
  match find (fun e => idsAreEqual (ucp_id e) c) acc with
  | Some e => ucp_permissions e
  | None => []
  end.

(** A role grants permission [p] on channel [c]. *)
Definition roleGrants (c : ID) (p : Permission) (r : Role) : Prop :=
  (exists ch, In ch (role_channels r) /\ idsAreEqual (channel_id ch) c = true)
  /\ In p (role_permissions r).

(** Every permission of the list is in the catalog. *)
Definition allValid (ps : list Permission) : Prop :=
  Forall (fun p => In p Permission_values) ps.

(** The channel the new role is bound to: the one [channelId] names, or the
    channel of the request when the input names none. *)
Definition targetChannelOf (ctx : RequestContext) (input : CreateRoleInput)
    (st : Store) : option Channel :=
  match truthyId (create_channelId input) with
  | Some channelId => findChannel channelId st
  | None => Some (ctx_channel ctx)
  end.

(** The role that [createRoleForChannel] hands to [save], under the
    identifier the store generates for it. *)
Definition createdRole (input : CreateRoleInput) (channel : Channel)
    (st : Store) : Role :=
  {| role_id := Some (IdNum (store_nextId st));
     role_code := create_code input;
     role_description := create_description input;
     role_permissions :=
       unique (Permission_Authenticated :: create_permissions input);
     role_channels := [channel] |}.

(** The store after a new row [r] was inserted. *)
Definition inserted (r : Role) (st : Store) : Store :=
  {| store_roles := store_roles st ++ [r];
     store_users := store_users st;
     store_channels := store_channels st;
     store_defaultChannel := store_defaultChannel st;
     store_nextId := (store_nextId st + 1)%Z;
     store_saved := store_saved st ++ [r] |}.

(** The entity that [update] hands to [save]. *)
Definition updatedRole (role : Role) (input : UpdateRoleInput) : Role :=
  patchEntity role
    {| patch_code := update_code input;
       patch_description := update_description input;
       patch_permissions :=
         match update_permissions input with
         | Some ps => Some (unique (Permission_Authenticated :: ps))
         | None => None
         end |}.

(** The inputs that the two bootstrap steps hand to
    [createRoleForChannel]. *)
Definition superAdminInput : CreateRoleInput :=
  {| create_channelId := None;
     create_code := SUPER_ADMIN_ROLE_CODE;
     create_description := SUPER_ADMIN_ROLE_DESCRIPTION;
     create_permissions := allPermissionsExceptOwner |}.

Definition customerInput : CreateRoleInput :=
  {| create_channelId := None;
     create_code := CUSTOMER_ROLE_CODE;
     create_description := CUSTOMER_ROLE_DESCRIPTION;
     create_permissions := [Permission_Authenticated] |}.

(** The permission list holds [Authenticated] and no value twice. *)
Definition normalized (r : Role) : Prop :=
  In Permission_Authenticated (role_permissions r) /\
  NoDup (role_permissions r).

Definition countByCode (code : string) (rows : list Role) : nat :=
  length (filter (fun r => role_code r =? code) rows).

(** The role carries [Authenticated] and only members of the catalog. *)
Definition permissionsInCatalog (r : Role) : Prop :=
  In Permission_Authenticated (role_permissions r) /\
  incl (role_permissions r) Permission_values.

(** Every stored role does. *)
Definition storeInCatalog (st : Store) : Prop :=
  forall r, In r (store_roles st) -> permissionsInCatalog r.

(** The role has one of the two protected codes. *)
Definition isSystemRole (r : Role) : Prop :=
  role_code r = SUPER_ADMIN_ROLE_CODE \/ role_code r = CUSTOMER_ROLE_CODE.

(** The user may create roles on channel [c]: one of the roles grants
    [CreateAdministrator] there. *)
Definition mayCreateOn (c : ID) (user : User) : Prop :=
  exists r, In r (user_roles user) /\
            roleGrants c Permission_CreateAdministrator r.

Definition withChannelId (input : CreateRoleInput) (channelId : option ID)
    : CreateRoleInput :=
  {| create_channelId := channelId;
     create_code := create_code input;
     create_description := create_description input;
     create_permissions := create_permissions input |}.

Definition withActiveUserId (ctx : RequestContext) (userId : option ID)
    : RequestContext :=
  {| ctx_activeUserId := userId; ctx_channel := ctx_channel ctx |}.

(** The optional identifier is absent, the number zero or the empty
    string. *)
Definition falsy (o : option ID) : Prop :=
  o = None \/ o = Some (IdNum 0) \/ o = Some (IdStr "").

(** * Properties *)

(** ** Identifiers, lists of permissions *)

Lemma idsAreEqual_eq (a b : ID) : idsAreEqual a b = true <-> a = b.
Proof.
  destruct a as [s | n], b as [t | m]; simpl; split; intros H;
    try discriminate; try congruence.
  - apply String.eqb_eq in H. now subst.
  - inversion H. apply String.eqb_refl.
  - apply Z.eqb_eq in H. now subst.
  - inversion H. apply Z.eqb_refl.
Qed.

Lemma idsAreEqual_refl (a : ID) : idsAreEqual a a = true.
Proof. now apply idsAreEqual_eq. Qed.

Lemma idsAreEqual_neq (a b : ID) : idsAreEqual a b = false <-> a <> b.
Proof.
  rewrite <- idsAreEqual_eq. destruct (idsAreEqual a b); split; congruence.
Qed.

Lemma includes_In (l : list string) (x : string) :
  includes l x = true <-> In x l.
Proof.
  unfold includes. rewrite existsb_exists. split.
  - intros [y [Hy Heq]]. apply String.eqb_eq in Heq. now subst.
  - intros H. exists x. split; [assumption | apply String.eqb_refl].
Qed.

Lemma unique_In (l : list string) (x : string) : In x (unique l) <-> In x l.
Proof.
  induction l as [| y t IH]; simpl; [tauto |].
  rewrite filter_In, IH. split.
  - intros [H | [H _]]; auto.
  - intros [H | H]; auto.
    destruct (String.eqb_spec y x) as [E | E]; auto.
Qed.

Lemma unique_NoDup (l : list string) : NoDup (unique l).
Proof.
  induction l as [| y t IH]; simpl; constructor.
  - rewrite filter_In. intros [_ H]. now rewrite String.eqb_refl in H.
  - now apply NoDup_filter.
Qed.

Lemma unique_head (x : string) (l : list string) :
  In x (unique (x :: l)).
Proof. simpl. now left. Qed.

(** ** The permissions of a user on a channel *)

Lemma permissionsOn_addChannel (c k : ID) (p : Permission)
    (perms : list Permission) (acc : list UserChannelPermissions) :
  In p (permissionsOn c (addChannelPermissions k perms acc)) <->
  In p (permissionsOn c acc) \/ (idsAreEqual k c = true /\ In p perms).
Proof.
  unfold permissionsOn.
  induction acc as [| e rest IH]; simpl.
  - destruct (idsAreEqual k c) eqn:Ekc; simpl.
    + rewrite unique_In. tauto.
    + split; [tauto | intros [[] | [H _]]; discriminate].
  - destruct (idsAreEqual (ucp_id e) k) eqn:Eek; simpl.
    + apply idsAreEqual_eq in Eek. subst k.
      destruct (idsAreEqual (ucp_id e) c) eqn:Eec; simpl.
      * rewrite unique_In, in_app_iff. tauto.
      * split; [tauto | intros [H | [H _]]; [assumption | discriminate]].
    + destruct (idsAreEqual (ucp_id e) c) eqn:Eec.
      * apply idsAreEqual_eq in Eec. subst c.
        apply idsAreEqual_neq in Eek.
        split; [tauto |]. intros [H | [H _]]; [assumption |].
        apply idsAreEqual_eq in H. congruence.
      * exact IH.
Qed.

Lemma permissionsOn_addChannels (c : ID) (p : Permission)
    (perms : list Permission) (chs : list Channel)
    (acc : list UserChannelPermissions) :
  In p (permissionsOn c
          (fold_left (fun a ch => addChannelPermissions (channel_id ch) perms a)
                     chs acc)) <->
  In p (permissionsOn c acc) \/
  ((exists ch, In ch chs /\ idsAreEqual (channel_id ch) c = true) /\ In p perms).
Proof.
  revert acc. induction chs as [| ch chs IH]; intros acc; simpl.
  - split; [tauto | intros [H | [[ch [[] _]] _]]; assumption].
  - rewrite IH, permissionsOn_addChannel. split.
    + intros [[H | [H1 H2]] | [[x [Hx1 Hx2]] H]]; eauto 7.
    + intros [H | [[x [[Hx | Hx] Hx2]] H]]; subst; eauto 7.
Qed.

Lemma permissionsOn_addRole (c : ID) (p : Permission) (r : Role)
    (acc : list UserChannelPermissions) :
  In p (permissionsOn c (addRolePermissions acc r)) <->
  In p (permissionsOn c acc) \/ roleGrants c p r.
Proof. apply permissionsOn_addChannels. Qed.

Lemma permissionsOn_addRoles (c : ID) (p : Permission) (rs : list Role)
    (acc : list UserChannelPermissions) :
  In p (permissionsOn c (fold_left addRolePermissions rs acc)) <->
  In p (permissionsOn c acc) \/ (exists r, In r rs /\ roleGrants c p r).
Proof.
  revert acc. induction rs as [| r rs IH]; intros acc; simpl.
  - split; [tauto | intros [H | [r [[] _]]]; assumption].
  - rewrite IH, permissionsOn_addRole. split.
    + intros [[H | H] | [x [Hx H]]]; eauto 6.
    + intros [H | [x [[Hx | Hx] H]]]; subst; eauto 6.
Qed.

Lemma permissionsOn_user (c : ID) (p : Permission) (user : User) :
  In p (permissionsOn c (getUserChannelsPermissions user)) <->
  exists r, In r (user_roles user) /\ roleGrants c p r.
Proof.
  unfold getUserChannelsPermissions. rewrite permissionsOn_addRoles.
  unfold permissionsOn. simpl. tauto.
Qed.

(** The service answers by membership in [permissionsOn]. *)
Lemma userHasPermissionOnChannel_run (u c : ID) (p : Permission) (st : Store) :
  userHasPermissionOnChannel u c p st =
  match findUser u st with
  | None => (inl (EntityNotFoundError "User" u), st)
  | Some user =>
      (inr (includes (permissionsOn c (getUserChannelsPermissions user)) p), st)
  end.
Proof.
  unfold userHasPermissionOnChannel, getEntityOrThrow_User, bind, gets,
    permissionsOn.
  destruct (findUser u st) as [user |]; [| reflexivity].
  unfold ret.
  destruct (find _ (getUserChannelsPermissions user)); reflexivity.
Qed.

(** C1: [userHasPermissionOnChannel u c p] fails with the not-found error of
    entity User when user [u] does not exist; otherwise it returns a boolean
    and leaves the store as it was, and the boolean is true exactly when
    some role of the user is assigned to channel [c] and has [p] among its
    permissions; in particular it is false when [c] is not a channel of any
    role of the user. *)
Theorem userHasPermissionOnChannel_spec (u c : ID) (p : Permission) (st : Store) :
  match findUser u st with
  | None =>
      userHasPermissionOnChannel u c p st =
      (inl (EntityNotFoundError "User" u), st)
  | Some user =>
      exists b : bool,
        userHasPermissionOnChannel u c p st = (inr b, st) /\
        (b = true <-> exists r, In r (user_roles user) /\ roleGrants c p r) /\
        (b = false <-> ~ exists r, In r (user_roles user) /\ roleGrants c p r) /\
        ((forall r ch, In r (user_roles user) -> In ch (role_channels r) ->
                       idsAreEqual (channel_id ch) c = false) -> b = false)
  end.
Proof.
  rewrite userHasPermissionOnChannel_run.
  destruct (findUser u st) as [user |]; [| reflexivity].
  eexists. split; [reflexivity |].
  assert (Hiff : includes (permissionsOn c (getUserChannelsPermissions user)) p = true
                 <-> exists r, In r (user_roles user) /\ roleGrants c p r).
  { now rewrite includes_In, permissionsOn_user. }
  destruct (includes _ p).
  - split; [tauto |]. split.
    + split; [discriminate | intros H; exfalso; apply H; now apply Hiff].
    + intros H. exfalso.
      destruct Hiff as [Hiff _].
      destruct (Hiff eq_refl) as [r [Hr [[ch [Hch E]] _]]].
      rewrite (H r ch Hr Hch) in E. discriminate.
  - split; [exact Hiff |]. split.
    + split; [intros _ H; apply Hiff in H; discriminate | reflexivity].
    + reflexivity.
Qed.

(** ** Validation of permissions *)

Lemma checkEachPermission_valid (ps : list Permission) :
  allValid ps -> checkEachPermission getAllPermissions ps = inr tt.
Proof.
  unfold allValid, getAllPermissions.
  induction 1 as [| p ps Hp _ IH]; simpl; [reflexivity |].
  apply includes_In in Hp. now rewrite Hp.
Qed.

Lemma checkEachPermission_invalid (ps : list Permission) :
  Exists (fun p => ~ In p Permission_values) ps ->
  exists pre p post,
    ps = pre ++ p :: post /\ allValid pre /\ ~ In p Permission_values /\
    checkEachPermission getAllPermissions ps =
    inl (UserInputError "error.permission-invalid" p).
Proof.
  unfold allValid, getAllPermissions.
  induction ps as [| q ps IH]; intros HE; [inversion HE |].
  simpl. destruct (includes Permission_values q) eqn:Hq; simpl.
  - apply includes_In in Hq.
    inversion HE as [? ? Hbad | ? ? Hrest]; subst; [contradiction |].
    destruct (IH Hrest) as [pre [p [post [E [Hpre [Hp Hc]]]]]].
    exists (q :: pre), p, post. subst ps.
    repeat split; auto.
  - exists [], q, ps. repeat split; auto.
    intros Hin. apply includes_In in Hin. congruence.
Qed.

Lemma checkPermissionsAreValid_ok (o : option (list Permission)) (st : Store) :
  (forall ps, o = Some ps -> allValid ps) ->
  checkPermissionsAreValid o st = (inr tt, st).
Proof.
  intros H. destruct o as [ps |]; [| reflexivity].
  unfold checkPermissionsAreValid, liftE.
  now rewrite checkEachPermission_valid by auto.
Qed.

(** ** [update] on the system roles *)

Lemma update_validation_error (input : UpdateRoleInput) (st : Store) (e : Error)
    (ps : list Permission) :
  update_permissions input = Some ps ->
  checkEachPermission getAllPermissions ps = inl e ->
  update input st = (inl e, st).
Proof.
  intros Hps Hc. unfold update, bind, checkPermissionsAreValid, liftE.
  now rewrite Hps, Hc.
Qed.

Lemma update_system_role (input : UpdateRoleInput) (st : Store) (role : Role) :
  checkPermissionsAreValid (update_permissions input) st = (inr tt, st) ->
  find (hasId (update_id input)) (store_roles st) = Some role ->
  role_code role = SUPER_ADMIN_ROLE_CODE \/ role_code role = CUSTOMER_ROLE_CODE ->
  update input st =
  (inl (InternalServerError "error.cannot-modify-role" (Some (role_code role))), st).
Proof.
  intros Hc Hf Hcode. unfold update, bind. rewrite Hc.
  unfold findOne, gets. rewrite Hf.
  assert (E : (role_code role =? SUPER_ADMIN_ROLE_CODE)
              || (role_code role =? CUSTOMER_ROLE_CODE) = true).
  { apply orb_true_iff. destruct Hcode as [H | H]; [left | right];
      now apply String.eqb_eq. }
  now rewrite E.
Qed.


(** C3: when the permissions of the input hold an identifier outside the
    catalog, [create] and [update] fail with the invalid-permission error
    that names the first such identifier of the list and leave the store
    untouched, whatever the store, the request context and the rest of the
    input are: no channel or user is looked up and nothing is written before
    the validation. *)
Theorem invalid_permission_rejected (ps : list Permission) :
  Exists (fun p => ~ In p Permission_values) ps ->
  exists pre p post,
    ps = pre ++ p :: post /\ allValid pre /\ ~ In p Permission_values /\
    (forall ctx input st,
        create_permissions input = ps ->
        create ctx input st =
        (inl (UserInputError "error.permission-invalid" p), st)) /\
    (forall input st,
        update_permissions input = Some ps ->
        update input st =
        (inl (UserInputError "error.permission-invalid" p), st)).
Proof.
  intros HE.
  destruct (checkEachPermission_invalid ps HE) as [pre [p [post [E [Hpre [Hp Hc]]]]]].
  exists pre, p, post. repeat split; auto.
  - intros ctx input st Hps. unfold create, bind, checkPermissionsAreValid, liftE.
    now rewrite Hps, Hc.
  - intros input st Hps. now apply update_validation_error with ps.
Qed.

(** ** Writes to the role table *)

Lemma find_upsertRole_same (i : ID) (r : Role) (rows : list Role) :
  hasId i r = true -> find (hasId i) (upsertRole i r rows) = Some r.
Proof.
  intros Hr. induction rows as [| x t IH]; simpl.
  - now rewrite Hr.
  - destruct (hasId i x) eqn:Hx; simpl.
    + now rewrite Hr.
    + now rewrite Hx.
Qed.

Lemma find_upsertRole_other (i j : ID) (r : Role) (rows : list Role) :
  role_id r = Some i -> j <> i ->
  find (hasId j) (upsertRole i r rows) = find (hasId j) rows.
Proof.
  intros Hr Hji.
  assert (Hjr : hasId j r = false).
  { unfold hasId. rewrite Hr. apply idsAreEqual_neq. congruence. }
  induction rows as [| x t IH]; simpl.
  - now rewrite Hjr.
  - destruct (hasId i x) eqn:Hx; simpl.
    + rewrite Hjr.
      assert (Hjx : hasId j x = false).
      { unfold hasId in Hx |- *.
        destruct (role_id x) as [k |]; [| reflexivity].
        apply idsAreEqual_eq in Hx. subst k.
        apply idsAreEqual_neq. congruence. }
      now rewrite Hjx.
    + now rewrite IH.
Qed.

Lemma In_upsertRole (i : ID) (r : Role) (rows : list Role) :
  In r (upsertRole i r rows).
Proof.
  induction rows as [| x t IH]; simpl; [now left |].
  destruct (hasId i x); simpl; auto.
Qed.

Lemma find_hasId_Some (i : ID) (rows : list Role) (r : Role) :
  find (hasId i) rows = Some r -> role_id r = Some i.
Proof.
  intros H. apply find_some in H. destruct H as [_ H].
  unfold hasId in H. destruct (role_id r) as [j |]; [| discriminate].
  apply idsAreEqual_eq in H. now subst.
Qed.

Lemma createRoleForChannel_run (input : CreateRoleInput) (channel : Channel)
    (st : Store) :
  createRoleForChannel input channel st =
  (inr (createdRole input channel st),
   inserted (createdRole input channel st) st).
Proof. reflexivity. Qed.

(** [create] either fails before any write or ends in
    [createRoleForChannel]. *)
Lemma create_cases (ctx : RequestContext) (input : CreateRoleInput) (st : Store) :
  (exists e, create ctx input st = (inl e, st)) \/
  (exists channel,
      create ctx input st = createRoleForChannel input channel st).
Proof.
  remember (create ctx input st) as res eqn:Hres.
  unfold create, bind, checkPermissionsAreValid, liftE,
    getEntityOrThrow_Channel, gets, ret, throw in Hres.
  destruct (checkEachPermission _ _) as [e | []]; [left; now exists e |].
  cbv beta iota in Hres.
  assert (Hgo : forall ch,
             res =
             match truthyId (ctx_activeUserId ctx) with
             | Some activeUserId =>
                 fun st0 =>
                   let (s, st') :=
                     userHasPermissionOnChannel activeUserId (channel_id ch)
                       Permission_CreateAdministrator st0 in
                   match s with
                   | inl e => (inl e, st')
                   | inr a =>
                       (if negb a
                        then fun st1 => (inl ForbiddenError, st1)
                        else createRoleForChannel input ch) st'
                   end
             | None => fun st0 => (inl ForbiddenError, st0)
             end st ->
             (exists e, res = (inl e, st)) \/
             (exists channel, res = createRoleForChannel input channel st)).
  { intros ch H.
    destruct (truthyId (ctx_activeUserId ctx)) as [uid |];
      [| left; eexists; exact H].
    rewrite userHasPermissionOnChannel_run in H.
    destruct (findUser uid st) as [user |]; [| left; eexists; exact H].
    destruct (includes _ _); simpl in H;
      [right; exists ch; exact H | left; eexists; exact H]. }
  destruct (truthyId (create_channelId input)) as [cid |].
  - unfold bind in Hres. cbv beta iota in Hres.
    destruct (findChannel cid st) as [ch |]; [| left; eexists; exact Hres].
    now apply (Hgo ch).
  - now apply (Hgo (ctx_channel ctx)).
Qed.

(** [update] either fails before any write or saves [updatedRole] and
    returns it. *)
Lemma update_cases (input : UpdateRoleInput) (st : Store) :
  (exists e, update input st = (inl e, st)) \/
  (exists role,
      find (hasId (update_id input)) (store_roles st) = Some role /\
      update input st =
      (inr (updatedRole role input), snd (save (updatedRole role input) st))).
Proof.
  remember (update input st) as res eqn:Hres.
  unfold update, bind, findOne, gets in Hres.
  assert (Hc : (exists e, checkPermissionsAreValid (update_permissions input) st
                          = (inl e, st)) \/
               checkPermissionsAreValid (update_permissions input) st
               = (inr tt, st)).
  { unfold checkPermissionsAreValid, liftE, ret.
    destruct (update_permissions input) as [ps |]; [| now right].
    destruct (checkEachPermission _ ps) as [e | []]; [left; now exists e | now right]. }
  destruct Hc as [[e Hc] | Hc]; rewrite Hc in Hres; [left; now exists e |].
  destruct (find _ _) as [role |] eqn:Hf; [| left; eexists; exact Hres].
  destruct (_ || _); [left; eexists; exact Hres |].
  right. exists role. split; [reflexivity |].
  pose proof (find_hasId_Some _ _ _ Hf) as Hid.
  fold (updatedRole role input) in Hres.
  assert (Hid' : role_id (updatedRole role input) = Some (update_id input))
    by exact Hid.
  unfold save, assertFound, bind, gets in Hres |- *.
  rewrite Hid' in Hres |- *. rewrite Hid in Hres.
  cbv beta iota in Hres. cbn [store_roles] in Hres.
  rewrite find_upsertRole_same in Hres; [exact Hres |].
  unfold hasId. rewrite Hid'. apply idsAreEqual_refl.
Qed.

(** ** Every written role carries [Authenticated] *)

Lemma createdRole_normalized (input : CreateRoleInput) (channel : Channel)
    (st : Store) :
  normalized (createdRole input channel st).
Proof. split; [apply unique_head | apply unique_NoDup]. Qed.

Lemma ensureSuperAdminRoleExists_absent (st : Store) :
  find (fun r => role_code r =? SUPER_ADMIN_ROLE_CODE) (store_roles st) = None ->
  ensureSuperAdminRoleExists st =
  (inr tt,
   inserted (createdRole superAdminInput (store_defaultChannel st) st) st).
Proof.
  intros H.
  unfold ensureSuperAdminRoleExists, tryCatch, getSuperAdminRole, bind at 1 2,
    getRoleByCode, gets.
  rewrite H. reflexivity.
Qed.

Lemma ensureSuperAdminRoleExists_complete (st : Store) (r : Role) :
  find (fun r => role_code r =? SUPER_ADMIN_ROLE_CODE) (store_roles st) = Some r ->
  forallb (includes (role_permissions r)) allPermissionsExceptOwner = true ->
  ensureSuperAdminRoleExists st = (inr tt, st).
Proof.
  intros H Hall.
  unfold ensureSuperAdminRoleExists, tryCatch, getSuperAdminRole, bind at 1 2,
    getRoleByCode, gets.
  rewrite H. unfold ret at 1.
  unfold includes in Hall. unfold includes. rewrite Hall. reflexivity.
Qed.

Lemma ensureSuperAdminRoleExists_heal (st : Store) (r : Role) :
  find (fun r => role_code r =? SUPER_ADMIN_ROLE_CODE) (store_roles st) = Some r ->
  forallb (includes (role_permissions r)) allPermissionsExceptOwner = false ->
  ensureSuperAdminRoleExists st =
  (inr tt, snd (save (withPermissions r allPermissionsExceptOwner) st)).
Proof.
  intros H Hall.
  unfold ensureSuperAdminRoleExists, tryCatch, getSuperAdminRole, bind at 1 2,
    getRoleByCode, gets.
  rewrite H. unfold ret at 1.
  unfold includes in Hall. unfold includes. rewrite Hall. simpl.
  unfold bind, save. destruct (role_id _); reflexivity.
Qed.

Lemma ensureCustomerRoleExists_present (st : Store) (r : Role) :
  find (fun r => role_code r =? CUSTOMER_ROLE_CODE) (store_roles st) = Some r ->
  ensureCustomerRoleExists st = (inr tt, st).
Proof.
  intros H.
  unfold ensureCustomerRoleExists, tryCatch, getCustomerRole, bind at 1 2,
    getRoleByCode, gets.
  rewrite H. reflexivity.
Qed.

Lemma ensureCustomerRoleExists_absent (st : Store) :
  find (fun r => role_code r =? CUSTOMER_ROLE_CODE) (store_roles st) = None ->
  ensureCustomerRoleExists st =
  (inr tt,
   inserted (createdRole customerInput (store_defaultChannel st) st) st).
Proof.
  intros H.
  unfold ensureCustomerRoleExists, tryCatch, getCustomerRole, bind at 1 2,
    getRoleByCode, gets.
  rewrite H. reflexivity.
Qed.

Lemma save_existing (r : Role) (i : ID) (st : Store) :
  role_id r = Some i ->
  save r st =
  (inr r,
   {| store_roles := upsertRole i r (store_roles st);
      store_users := store_users st;
      store_channels := store_channels st;
      store_defaultChannel := store_defaultChannel st;
      store_nextId := store_nextId st;
      store_saved := store_saved st ++ [r] |}).
Proof. intros H. unfold save. now rewrite H. Qed.

Lemma updatedRole_id (role : Role) (input : UpdateRoleInput) :
  role_id (updatedRole role input) = role_id role.
Proof. reflexivity. Qed.

Lemma hasId_updatedRole (role : Role) (input : UpdateRoleInput) (i : ID) :
  role_id role = Some i -> hasId i (updatedRole role input) = true.
Proof.
  intros H. unfold hasId. rewrite updatedRole_id, H. apply idsAreEqual_refl.
Qed.

Lemma updatedRole_normalized (role : Role) (input : UpdateRoleInput)
    (ps : list Permission) :
  update_permissions input = Some ps ->
  normalized (updatedRole role input).
Proof.
  intros H. unfold normalized, updatedRole, patchEntity. simpl.
  rewrite H. simpl orElse. split; [now left |].
  apply (unique_NoDup (Permission_Authenticated :: ps)).
Qed.

(** C4: every role that [create] writes, every role that an [update] with
    a permissions list writes, and the role that either bootstrap step
    creates when its system role is missing, has [Authenticated] among its
    permissions and no permission twice, whatever the input list holds.
    When [create] or such an [update] returns a role, that role is the one
    written, and it is a row of the table afterwards. *)
Theorem persisted_roles_normalized :
  (forall ctx input st,
      exists written,
        store_saved (snd (create ctx input st)) = store_saved st ++ written /\
        Forall normalized written /\
        (forall role,
            fst (create ctx input st) = inr role ->
            written = [role] /\
            In role (store_roles (snd (create ctx input st))))) /\
  (forall input ps st,
      update_permissions input = Some ps ->
      exists written,
        store_saved (snd (update input st)) = store_saved st ++ written /\
        Forall normalized written /\
        (forall role,
            fst (update input st) = inr role ->
            written = [role] /\
            role_permissions role = unique (Permission_Authenticated :: ps) /\
            In role (store_roles (snd (update input st))))) /\
  (forall st,
      find (fun r => role_code r =? SUPER_ADMIN_ROLE_CODE) (store_roles st) = None ->
      exists role,
        snd (ensureSuperAdminRoleExists st) = inserted role st /\
        role_code role = SUPER_ADMIN_ROLE_CODE /\ normalized role) /\
  (forall st,
      find (fun r => role_code r =? CUSTOMER_ROLE_CODE) (store_roles st) = None ->
      exists role,
        snd (ensureCustomerRoleExists st) = inserted role st /\
        role_code role = CUSTOMER_ROLE_CODE /\ normalized role).
Proof.
  repeat apply conj.
  - intros ctx input st.
    destruct (create_cases ctx input st) as [[e H] | [ch H]]; rewrite H.
    + exists []. simpl. rewrite app_nil_r.
      split; [reflexivity |]. split; [constructor |]. intros r E. discriminate.
    + rewrite createRoleForChannel_run. eexists. simpl. split; [reflexivity |].
      split.
      * constructor; [apply createdRole_normalized | constructor].
      * intros role E. inversion E; subst role. split; [reflexivity |].
        apply in_or_app. right. now left.
  - intros input ps st Hps.
    destruct (update_cases input st) as [[e H] | [role [Hf H]]]; rewrite H.
    + exists []. simpl. rewrite app_nil_r.
      split; [reflexivity |]. split; [constructor |]. intros r E. discriminate.
    + pose proof (find_hasId_Some _ _ _ Hf) as Hid.
      rewrite (save_existing _ (update_id input)) by exact Hid.
      eexists. simpl. split; [reflexivity |]. split.
      * constructor; [now apply updatedRole_normalized with ps | constructor].
      * intros r E. inversion E; subst r. split; [reflexivity |]. split.
        -- unfold updatedRole, patchEntity. simpl. now rewrite Hps.
        -- apply In_upsertRole.
  - intros st H. rewrite ensureSuperAdminRoleExists_absent by exact H.
    eexists. split; [reflexivity |]. split; [reflexivity |].
    apply createdRole_normalized.
  - intros st H. rewrite ensureCustomerRoleExists_absent by exact H.
    eexists. split; [reflexivity |]. split; [reflexivity |].
    apply createdRole_normalized.
Qed.

(** ** [update] as a partial patch *)

Lemma update_run (input : UpdateRoleInput) (st : Store) (role : Role) :
  (forall ps, update_permissions input = Some ps -> allValid ps) ->
  find (hasId (update_id input)) (store_roles st) = Some role ->
  role_code role <> SUPER_ADMIN_ROLE_CODE ->
  role_code role <> CUSTOMER_ROLE_CODE ->
  update input st =
  (inr (updatedRole role input),
   {| store_roles :=
        upsertRole (update_id input) (updatedRole role input) (store_roles st);
      store_users := store_users st;
      store_channels := store_channels st;
      store_defaultChannel := store_defaultChannel st;
      store_nextId := store_nextId st;
      store_saved := store_saved st ++ [updatedRole role input] |}).
Proof.
  intros Hv Hf Hsa Hcu.
  pose proof (find_hasId_Some _ _ _ Hf) as Hid.
  rewrite <- (save_existing _ (update_id input)) by exact Hid.
  destruct (update_cases input st) as [[e H] | [role0 [Hf0 H]]].
  - exfalso. revert H.
    unfold update, bind. rewrite checkPermissionsAreValid_ok by exact Hv.
    unfold findOne, gets. rewrite Hf.
    apply String.eqb_neq in Hsa, Hcu. rewrite Hsa, Hcu. simpl.
    fold (updatedRole role input).
    rewrite (save_existing _ (update_id input)) by exact Hid.
    unfold assertFound, bind, gets. rewrite Hid. cbn [store_roles].
    rewrite find_upsertRole_same; [discriminate |].
    now apply hasId_updatedRole.
  - rewrite Hf in Hf0. inversion Hf0; subst role0.
    rewrite H. now rewrite (save_existing _ (update_id input)) by exact Hid.
Qed.

(** C8: an update of an existing role leaves under its identifier a role
    with the same identifier and the same channels, whatever the input
    holds, and with the prior code, description and permissions wherever the
    input leaves the field out; the rows under other identifiers are as
    before.  When the role is not a system role and the permissions of the
    input are valid, the update succeeds and returns that stored role, whose
    code, description and permissions are those of the input where the input
    gives them (the permissions with [Authenticated] put in front and
    duplicates removed). *)
Theorem update_partial_patch (input : UpdateRoleInput) (st : Store)
    (role : Role) :
  find (hasId (update_id input)) (store_roles st) = Some role ->
  exists role',
    find (hasId (update_id input)) (store_roles (snd (update input st)))
    = Some role' /\
    role_id role' = role_id role /\
    role_channels role' = role_channels role /\
    (update_code input = None -> role_code role' = role_code role) /\
    (update_description input = None ->
     role_description role' = role_description role) /\
    (update_permissions input = None ->
     role_permissions role' = role_permissions role) /\
    (forall j, j <> update_id input ->
               find (hasId j) (store_roles (snd (update input st))) =
               find (hasId j) (store_roles st)) /\
    (role_code role <> SUPER_ADMIN_ROLE_CODE ->
     role_code role <> CUSTOMER_ROLE_CODE ->
     (forall ps, update_permissions input = Some ps -> allValid ps) ->
     fst (update input st) = inr role' /\
     (forall c, update_code input = Some c -> role_code role' = c) /\
     (forall d, update_description input = Some d ->
                role_description role' = d) /\
     (forall ps, update_permissions input = Some ps ->
                 role_permissions role' =
                 unique (Permission_Authenticated :: ps))).
Proof.
  intros Hf.
  pose proof (find_hasId_Some _ _ _ Hf) as Hid.
  destruct (update_cases input st) as [[e H] | [role0 [Hf0 H]]].
  - (* the update failed: nothing was written *)
    exists role. rewrite H. cbn [fst snd].
    split; [exact Hf |]. do 6 (split; [auto |]).
    intros Hsa Hcu Hv. exfalso.
    rewrite (update_run input st role Hv Hf Hsa Hcu) in H. discriminate.
  - rewrite Hf in Hf0. inversion Hf0; subst role0.
    exists (updatedRole role input). rewrite H.
    rewrite (save_existing _ (update_id input)) by exact Hid.
    cbn [fst snd store_roles].
    split; [apply find_upsertRole_same; now apply hasId_updatedRole |].
    split; [reflexivity |]. split; [reflexivity |].
    unfold updatedRole, patchEntity. cbn.
    repeat split.
    + intros E. now rewrite E.
    + intros E. now rewrite E.
    + intros E. now rewrite E.
    + intros j Hj. now apply find_upsertRole_other.
    + intros c E. now rewrite E.
    + intros d E. now rewrite E.
    + intros ps E. now rewrite E.
Qed.

(** ** The Customer bootstrap step *)

(** C9: when a role with the Customer code exists the step leaves the
    store as it is; when none exists it inserts one role, with the Customer
    code and description, the permission list [[Authenticated]] and the
    default channel as its only channel, and changes nothing else. *)
Theorem ensureCustomerRoleExists_spec (st : Store) :
  match find (fun r => role_code r =? CUSTOMER_ROLE_CODE) (store_roles st) with
  | Some _ => ensureCustomerRoleExists st = (inr tt, st)
  | None =>
      exists role,
        ensureCustomerRoleExists st = (inr tt, inserted role st) /\
        role_code role = CUSTOMER_ROLE_CODE /\
        role_description role = CUSTOMER_ROLE_DESCRIPTION /\
        role_permissions role = [Permission_Authenticated] /\
        role_channels role = [store_defaultChannel st] /\
        role_id role = Some (IdNum (store_nextId st))
  end.
Proof.
  destruct (find _ _) as [r |] eqn:H.
  - now apply ensureCustomerRoleExists_present with r.
  - eexists. split; [now apply ensureCustomerRoleExists_absent |].
    repeat split.
Qed.

(** ** [create]: the acting user *)

Lemma create_run (ctx : RequestContext) (input : CreateRoleInput) (st : Store)
    (channel : Channel) :
  allValid (create_permissions input) ->
  targetChannelOf ctx input st = Some channel ->
  create ctx input st =
  match truthyId (ctx_activeUserId ctx) with
  | None => (inl ForbiddenError, st)
  | Some activeUserId =>
      match findUser activeUserId st with
      | None => (inl (EntityNotFoundError "User" activeUserId), st)
      | Some user =>
          if includes (permissionsOn (channel_id channel)
                         (getUserChannelsPermissions user))
                      Permission_CreateAdministrator
          then createRoleForChannel input channel st
          else (inl ForbiddenError, st)
      end
  end.
Proof.
  intros Hv Ht. unfold create, bind at 1.
  rewrite checkPermissionsAreValid_ok
    by (intros ps E; inversion E; now subst).
  assert (Hch : match truthyId (create_channelId input) with
                | Some channelId => getEntityOrThrow_Channel channelId
                | None => ret (ctx_channel ctx)
                end st = (inr channel, st)).
  { unfold targetChannelOf in Ht.
    destruct (truthyId (create_channelId input)) as [cid |].
    - unfold getEntityOrThrow_Channel, bind, gets. now rewrite Ht.
    - inversion Ht. reflexivity. }
  unfold bind at 1. rewrite Hch.
  destruct (truthyId (ctx_activeUserId ctx)) as [uid |]; [| reflexivity].
  unfold bind. rewrite userHasPermissionOnChannel_run.
  destruct (findUser uid st) as [user |]; [| reflexivity].
  now destruct (includes _ _).
Qed.

Lemma create_channel_not_found (ctx : RequestContext) (input : CreateRoleInput)
    (st : Store) (channelId : ID) :
  allValid (create_permissions input) ->
  truthyId (create_channelId input) = Some channelId ->
  findChannel channelId st = None ->
  create ctx input st = (inl (EntityNotFoundError "Channel" channelId), st).
Proof.
  intros Hv Hc Hf. unfold create, bind at 1.
  rewrite checkPermissionsAreValid_ok
    by (intros ps E; inversion E; now subst).
  unfold bind at 1. rewrite Hc.
  unfold getEntityOrThrow_Channel, bind, gets. now rewrite Hf.
Qed.

(** C7, as amended: a [create] with valid permissions in a request that
    carries no active user writes nothing.  It fails with the forbidden
    error when the input names no channel or names one that exists; when the
    input names a channel that does not exist it fails with the not-found
    error of entity Channel, because the channel is looked up before the
    acting user is checked. *)
Theorem create_without_active_user (ctx : RequestContext)
    (input : CreateRoleInput) (st : Store) :
  allValid (create_permissions input) ->
  ctx_activeUserId ctx = None ->
  match truthyId (create_channelId input) with
  | Some channelId =>
      match findChannel channelId st with
      | Some _ => create ctx input st = (inl ForbiddenError, st)
      | None =>
          create ctx input st =
          (inl (EntityNotFoundError "Channel" channelId), st)
      end
  | None => create ctx input st = (inl ForbiddenError, st)
  end.
Proof.
  intros Hv Hu.
  destruct (truthyId (create_channelId input)) as [cid |] eqn:Hc.
  - destruct (findChannel cid st) as [ch |] eqn:Hf.
    + rewrite (create_run ctx input st ch Hv).
      * now rewrite Hu.
      * unfold targetChannelOf. now rewrite Hc.
    + now apply create_channel_not_found.
  - rewrite (create_run ctx input st (ctx_channel ctx) Hv).
    + now rewrite Hu.
    + unfold targetChannelOf. now rewrite Hc.
Qed.

(** ** [Owner] in the catalog *)

Lemma Owner_not_in_bootstrap_set :
  ~ In Permission_Owner allPermissionsExceptOwner.
Proof.
  unfold allPermissionsExceptOwner. rewrite filter_In. intros [_ H].
  now rewrite String.eqb_refl in H.
Qed.

(** C10: when [Owner] is a member of the catalog, [getAllPermissions]
    returns the catalog with [Owner] in it and the validation accepts every
    list of catalog members, so a [create] by a user who holds
    [CreateAdministrator] on the target channel, and an [update] of a role
    that is not a system role, store a role that has [Owner] whenever the
    input list has it; the set the bootstrap gives to SuperAdmin has no
    [Owner]. *)
Theorem Owner_can_be_granted :
  In Permission_Owner Permission_values ->
  getAllPermissions = Permission_values /\
  In Permission_Owner getAllPermissions /\
  ~ In Permission_Owner allPermissionsExceptOwner /\
  (forall ps st,
      allValid ps -> checkPermissionsAreValid (Some ps) st = (inr tt, st)) /\
  (forall ctx input st activeUserId channel,
      allValid (create_permissions input) ->
      In Permission_Owner (create_permissions input) ->
      targetChannelOf ctx input st = Some channel ->
      truthyId (ctx_activeUserId ctx) = Some activeUserId ->
      userHasPermissionOnChannel activeUserId (channel_id channel)
        Permission_CreateAdministrator st = (inr true, st) ->
      exists role st',
        create ctx input st = (inr role, st') /\
        In role (store_roles st') /\
        In Permission_Owner (role_permissions role)) /\
  (forall input st role ps,
      update_permissions input = Some ps ->
      allValid ps ->
      In Permission_Owner ps ->
      find (hasId (update_id input)) (store_roles st) = Some role ->
      role_code role <> SUPER_ADMIN_ROLE_CODE ->
      role_code role <> CUSTOMER_ROLE_CODE ->
      exists role' st',
        update input st = (inr role', st') /\
        find (hasId (update_id input)) (store_roles st') = Some role' /\
        In Permission_Owner (role_permissions role')).
Proof.
  intros HO. split; [reflexivity |]. split; [exact HO |].
  split; [exact Owner_not_in_bootstrap_set |]. split; [| split].
  - intros ps st Hv. apply checkPermissionsAreValid_ok.
    intros ps' E. inversion E. now subst.
  - intros ctx input st uid ch Hv Hin Ht Hu Hp.
    rewrite (create_run ctx input st ch Hv Ht), Hu.
    rewrite userHasPermissionOnChannel_run in Hp.
    destruct (findUser uid st) as [user |]; [| discriminate].
    inversion Hp as [Hb]. rewrite Hb.
    rewrite createRoleForChannel_run. eexists. eexists.
    split; [reflexivity |]. split.
    + simpl. apply in_or_app. right. now left.
    + unfold createdRole. cbn [role_permissions].
      apply unique_In. now right.
  - intros input st role ps Hps Hv Hin Hf Hsa Hcu.
    pose proof (find_hasId_Some _ _ _ Hf) as Hid.
    eexists. eexists. split.
    + apply (update_run input st role); auto.
      intros ps' E. rewrite Hps in E. inversion E. now subst.
    + cbn [store_roles]. split.
      * apply find_upsertRole_same. now apply hasId_updatedRole.
      * unfold updatedRole, patchEntity. cbn. rewrite Hps. cbn.
        right. apply filter_In. split; [now apply unique_In |].
        reflexivity.
Qed.

(** ** The bootstrap *)

Lemma forallb_includes_incl (l ps : list Permission) :
  forallb (includes l) ps = true <-> incl ps l.
Proof.
  rewrite forallb_forall. unfold incl. split; intros H p Hp.
  - apply includes_In. now apply H.
  - apply includes_In. now apply H.
Qed.

Lemma In_allPermissionsExceptOwner (p : Permission) :
  In p allPermissionsExceptOwner <->
  In p Permission_values /\ p <> Permission_Owner.
Proof.
  unfold allPermissionsExceptOwner. rewrite filter_In.
  rewrite negb_true_iff, String.eqb_neq. tauto.
Qed.

Lemma createdRole_superAdmin_complete (channel : Channel) (st : Store) :
  forallb (includes (role_permissions (createdRole superAdminInput channel st)))
          allPermissionsExceptOwner = true.
Proof.
  apply forallb_includes_incl. intros p Hp.
  unfold createdRole, superAdminInput. cbn [role_permissions create_permissions].
  apply unique_In. now right.
Qed.

(** The SuperAdmin step never fails. *)
Lemma ensureSuperAdminRoleExists_total (st : Store) :
  fst (ensureSuperAdminRoleExists st) = inr tt.
Proof.
  destruct (find (fun r => role_code r =? SUPER_ADMIN_ROLE_CODE) (store_roles st))
    as [r |] eqn:Hf.
  - destruct (forallb (includes (role_permissions r)) allPermissionsExceptOwner)
      eqn:Hall.
    + now rewrite (ensureSuperAdminRoleExists_complete st r).
    + now rewrite (ensureSuperAdminRoleExists_heal st r).
  - now rewrite ensureSuperAdminRoleExists_absent.
Qed.

Lemma initRoles_sequence (st : Store) :
  initRoles st = ensureCustomerRoleExists (snd (ensureSuperAdminRoleExists st)).
Proof.
  unfold initRoles, bind.
  pose proof (ensureSuperAdminRoleExists_total st) as H.
  destruct (ensureSuperAdminRoleExists st) as [[e | []] st']; simpl in H |- *;
    [discriminate | reflexivity].
Qed.

(** C5: on a store without roles, when [Authenticated] is a member of the
    catalog, [initRoles] ends in a store on which a second [initRoles]
    changes nothing and writes nothing.  That store has exactly one role
    with the SuperAdmin code and exactly one with the Customer code, and the
    permissions of the SuperAdmin role are the members of the catalog other
    than [Owner].  In every run the Customer step works on the store the
    SuperAdmin step left, and the first role the first run writes is the
    SuperAdmin role. *)
Theorem initRoles_idempotent (st0 : Store) :
  In Permission_Authenticated Permission_values ->
  store_roles st0 = [] ->
  exists st1,
    initRoles st0 = (inr tt, st1) /\
    initRoles st1 = (inr tt, st1) /\
    countByCode SUPER_ADMIN_ROLE_CODE (store_roles st1) = 1 /\
    countByCode CUSTOMER_ROLE_CODE (store_roles st1) = 1 /\
    (exists sa,
        find (fun r => role_code r =? SUPER_ADMIN_ROLE_CODE) (store_roles st1)
        = Some sa /\
        forall p, In p (role_permissions sa) <->
                  In p Permission_values /\ p <> Permission_Owner) /\
    (forall st,
        initRoles st =
        ensureCustomerRoleExists (snd (ensureSuperAdminRoleExists st))) /\
    (exists sa rest,
        store_saved st1 = store_saved st0 ++ sa :: rest /\
        role_code sa = SUPER_ADMIN_ROLE_CODE).
Proof.
  intros HA Hempty.
  set (sa := createdRole superAdminInput (store_defaultChannel st0) st0).
  set (stA := inserted sa st0).
  assert (HstepA : ensureSuperAdminRoleExists st0 = (inr tt, stA)).
  { apply ensureSuperAdminRoleExists_absent. now rewrite Hempty. }
  assert (HrolesA : store_roles stA = [sa]).
  { unfold stA, inserted. cbn [store_roles]. now rewrite Hempty. }
  assert (Hsa_perms : forall p, In p (role_permissions sa) <->
                                In p Permission_values /\ p <> Permission_Owner).
  { intros p. unfold sa, createdRole, superAdminInput.
    cbn [role_permissions create_permissions].
    rewrite unique_In. cbn [In]. rewrite In_allPermissionsExceptOwner.
    split; [| tauto]. intros [E | H]; [| exact H].
    subst p. split; [exact HA | discriminate]. }
  assert (Hcode_sa : (role_code sa =? SUPER_ADMIN_ROLE_CODE) = true)
    by apply String.eqb_refl.
  assert (HsecondA : forall st, store_roles st = sa :: tl (store_roles st) ->
                                ensureSuperAdminRoleExists st = (inr tt, st)).
  { intros st Hst. apply ensureSuperAdminRoleExists_complete with sa.
    - rewrite Hst. cbn [find]. now rewrite Hcode_sa.
    - apply createdRole_superAdmin_complete. }
  destruct (role_code sa =? CUSTOMER_ROLE_CODE) eqn:Hsc.
  - (* the two codes coincide: the SuperAdmin role answers both lookups *)
    assert (HstepC : ensureCustomerRoleExists stA = (inr tt, stA)).
    { apply ensureCustomerRoleExists_present with sa.
      rewrite HrolesA. cbn [find]. now rewrite Hsc. }
    exists stA.
    assert (Hrun1 : initRoles st0 = (inr tt, stA)).
    { rewrite initRoles_sequence, HstepA. exact HstepC. }
    assert (Hrun2 : initRoles stA = (inr tt, stA)).
    { rewrite initRoles_sequence, HsecondA by now rewrite HrolesA.
      exact HstepC. }
    split; [exact Hrun1 |]. split; [exact Hrun2 |].
    unfold countByCode. rewrite HrolesA. cbn [filter find].
    rewrite Hcode_sa, Hsc.
    repeat split; auto using initRoles_sequence.
    + exists sa. now split.
    + exists sa, []. split; reflexivity.
  - set (cu := createdRole customerInput (store_defaultChannel stA) stA).
    set (stC := inserted cu stA).
    assert (HstepC : ensureCustomerRoleExists stA = (inr tt, stC)).
    { apply ensureCustomerRoleExists_absent.
      rewrite HrolesA. cbn [find]. now rewrite Hsc. }
    assert (HrolesC : store_roles stC = [sa; cu]).
    { unfold stC, inserted. cbn [store_roles]. now rewrite HrolesA. }
    assert (Hcode_cu : (role_code cu =? CUSTOMER_ROLE_CODE) = true)
      by apply String.eqb_refl.
    assert (Hcs : (role_code cu =? SUPER_ADMIN_ROLE_CODE) = false).
    { apply String.eqb_neq. apply String.eqb_neq in Hsc.
      unfold cu, sa in *. cbn in *. congruence. }
    exists stC.
    assert (Hrun1 : initRoles st0 = (inr tt, stC)).
    { rewrite initRoles_sequence, HstepA. exact HstepC. }
    assert (Hrun2 : initRoles stC = (inr tt, stC)).
    { rewrite initRoles_sequence, HsecondA by now rewrite HrolesC.
      apply ensureCustomerRoleExists_present with cu.
      rewrite HrolesC. cbn [find]. now rewrite Hsc, Hcode_cu. }
    split; [exact Hrun1 |]. split; [exact Hrun2 |].
    unfold countByCode. rewrite HrolesC. cbn [filter find].
    rewrite Hcode_sa, Hsc, Hcode_cu, Hcs.
    repeat split; auto using initRoles_sequence.
    + exists sa. now split.
    + exists sa, [cu]. split; [| reflexivity].
      unfold stC, stA, inserted. cbn [store_saved].
      now rewrite <- app_assoc.
Qed.

(** ** Healing of the SuperAdmin role *)

Lemma find_code_upsertRole (code : string) (i : ID) (r r' : Role)
    (rows : list Role) :
  find (fun x => role_code x =? code) rows = Some r ->
  role_id r = Some i ->
  role_code r' = code ->
  find (fun x => role_code x =? code) (upsertRole i r' rows) = Some r'.
Proof.
  intros Hf Hid Hc.
  assert (Hc' : (role_code r' =? code) = true) by now apply String.eqb_eq.
  induction rows as [| x t IH]; [discriminate |].
  cbn [find upsertRole] in Hf |- *.
  destruct (hasId i x) eqn:Hx; cbn [find].
  - now rewrite Hc'.
  - destruct (role_code x =? code) eqn:Hxc.
    + inversion Hf; subst x. unfold hasId in Hx. rewrite Hid in Hx.
      now rewrite idsAreEqual_refl in Hx.
    + now apply IH.
Qed.

(** C6, as amended: on a store that holds a SuperAdmin role, the
    SuperAdmin step succeeds and leaves a SuperAdmin role whose permissions
    include every member of the catalog other than [Owner].  When the prior
    permissions already include them all, the store is left as it is, with
    whatever else the prior permissions hold; when one is missing, the role
    is written with exactly the catalog members other than [Owner] as its
    permissions and its other fields as before. *)
Theorem ensureSuperAdminRoleExists_spec (st : Store) (r : Role) (i : ID) :
  find (fun x => role_code x =? SUPER_ADMIN_ROLE_CODE) (store_roles st) = Some r ->
  role_id r = Some i ->
  exists r' st',
    ensureSuperAdminRoleExists st = (inr tt, st') /\
    find (fun x => role_code x =? SUPER_ADMIN_ROLE_CODE) (store_roles st')
    = Some r' /\
    incl allPermissionsExceptOwner (role_permissions r') /\
    (incl allPermissionsExceptOwner (role_permissions r) ->
     st' = st /\ r' = r) /\
    (~ incl allPermissionsExceptOwner (role_permissions r) ->
     r' = withPermissions r allPermissionsExceptOwner /\
     store_roles st' = upsertRole i r' (store_roles st) /\
     store_saved st' = store_saved st ++ [r']).
Proof.
  intros Hf Hid.
  destruct (forallb (includes (role_permissions r)) allPermissionsExceptOwner)
    eqn:Hall.
  - exists r, st. split; [now apply ensureSuperAdminRoleExists_complete with r |].
    split; [exact Hf |].
    apply forallb_includes_incl in Hall.
    split; [exact Hall |]. split; [now split | contradiction].
  - assert (Hnot : ~ incl allPermissionsExceptOwner (role_permissions r)).
    { intros H. apply forallb_includes_incl in H. congruence. }
    eexists. eexists.
    split; [rewrite (ensureSuperAdminRoleExists_heal st r Hf Hall);
            rewrite (save_existing _ i) by exact Hid; reflexivity |].
    cbn [store_roles store_saved snd].
    split.
    { apply find_code_upsertRole with r; auto.
      apply find_some in Hf. destruct Hf as [_ Hc].
      now apply String.eqb_eq in Hc. }
    split; [apply incl_refl |].
    split; [contradiction |]. intros _. repeat split.
Qed.

(** * Further properties *)

(** ** Rows of the role table *)

Lemma find_app_last {A} (f : A -> bool) (l : list A) (x : A) :
  find f (l ++ [x]) =
  match find f l with
  | Some y => Some y
  | None => if f x then Some x else None
  end.
Proof.
  induction l as [| a l IH]; simpl; [reflexivity |].
  now destruct (f a).
Qed.

Lemma upsertRole_split (i : ID) (r' role : Role) (rows : list Role) :
  find (hasId i) rows = Some role ->
  exists pre post,
    rows = pre ++ role :: post /\ upsertRole i r' rows = pre ++ r' :: post.
Proof.
  induction rows as [| x t IH]; [discriminate |].
  cbn [find upsertRole]. destruct (hasId i x) eqn:Hx; intros H.
  - inversion H; subst x. now exists [], t.
  - destruct (IH H) as [pre [post [E1 E2]]].
    exists (x :: pre), post. split; simpl; congruence.
Qed.

Lemma upsertRole_absent (i : ID) (r' : Role) (rows : list Role) :
  find (hasId i) rows = None -> upsertRole i r' rows = rows ++ [r'].
Proof.
  induction rows as [| x t IH]; [reflexivity |].
  cbn [find upsertRole]. destruct (hasId i x); [discriminate |].
  intros H. simpl. now rewrite IH.
Qed.

Lemma In_upsertRole_inv (i : ID) (r' x : Role) (rows : list Role) :
  In x (upsertRole i r' rows) -> x = r' \/ In x rows.
Proof.
  induction rows as [| y t IH]; simpl.
  - intros [H | []]; auto.
  - destruct (hasId i y); simpl.
    + intros [H | H]; auto.
    + intros [H | H]; auto. destruct (IH H); auto.
Qed.

Lemma upsertRole_idem (i : ID) (r' : Role) (rows : list Role) :
  hasId i r' = true ->
  upsertRole i r' (upsertRole i r' rows) = upsertRole i r' rows.
Proof.
  intros Hr. induction rows as [| x t IH]; simpl.
  - now rewrite Hr.
  - destruct (hasId i x) eqn:Hx; simpl.
    + now rewrite Hr.
    + now rewrite Hx, IH.
Qed.

Lemma NoDup_map_In_eq {A B} (f : A -> B) (l : list A) (a b : A) :
  NoDup (map f l) -> In a l -> In b l -> f a = f b -> a = b.
Proof.
  induction l as [| x t IH]; simpl; [tauto |].
  intros Hnd Ha Hb E. inversion Hnd as [| ? ? Hx Ht]; subst.
  destruct Ha as [Ha | Ha], Hb as [Hb | Hb]; subst; auto.
  - exfalso. apply Hx. rewrite E. now apply in_map.
  - exfalso. apply Hx. rewrite <- E. now apply in_map.
Qed.

(** ** Validation, once more *)

Lemma checkEachPermission_iff (ps : list Permission) :
  checkEachPermission getAllPermissions ps = inr tt <-> allValid ps.
Proof.
  split; [| apply checkEachPermission_valid].
  unfold allValid, getAllPermissions.
  induction ps as [| p ps IH]; simpl; intros H; [constructor |].
  destruct (includes Permission_values p) eqn:Hp; simpl in H; [| discriminate].
  constructor; [now apply includes_In | auto].
Qed.

(** X1: the validation accepts a permissions list exactly when every entry
    is a member of the catalog, an absent list and the empty list included;
    accepted or not, it leaves the store as it is. *)
Theorem checkPermissionsAreValid_iff (o : option (list Permission)) (st : Store) :
  (checkPermissionsAreValid o st = (inr tt, st) <->
   forall ps, o = Some ps -> allValid ps) /\
  snd (checkPermissionsAreValid o st) = st /\
  checkPermissionsAreValid None st = (inr tt, st) /\
  checkPermissionsAreValid (Some []) st = (inr tt, st).
Proof.
  split; [| split; [| split; reflexivity]].
  - split; [| apply checkPermissionsAreValid_ok].
    destruct o as [ps |]; [| discriminate].
    unfold checkPermissionsAreValid, liftE. intros H ps' E.
    inversion E; subst ps'. apply checkEachPermission_iff.
    destruct (checkEachPermission getAllPermissions ps) as [e | []];
      [discriminate | reflexivity].
  - now destruct o.
Qed.

Lemma create_invalid (ctx : RequestContext) (input : CreateRoleInput)
    (st : Store) (e : Error) :
  checkEachPermission getAllPermissions (create_permissions input) = inl e ->
  create ctx input st = (inl e, st).
Proof.
  intros H. unfold create, bind, checkPermissionsAreValid, liftE.
  now rewrite H.
Qed.

Lemma create_success_valid (ctx : RequestContext) (input : CreateRoleInput)
    (st : Store) (role : Role) :
  fst (create ctx input st) = inr role -> allValid (create_permissions input).
Proof.
  intros H. apply checkEachPermission_iff.
  destruct (checkEachPermission getAllPermissions (create_permissions input))
    as [e | []] eqn:Hc; [| reflexivity].
  rewrite (create_invalid ctx input st e Hc) in H. discriminate.
Qed.

Lemma update_success (input : UpdateRoleInput) (st : Store) (role' : Role) :
  fst (update input st) = inr role' ->
  exists role,
    find (hasId (update_id input)) (store_roles st) = Some role /\
    ~ isSystemRole role /\
    (forall ps, update_permissions input = Some ps -> allValid ps) /\
    role' = updatedRole role input.
Proof.
  intros H.
  destruct (update_cases input st) as [[e He] | [role [Hf Hrun]]];
    [rewrite He in H; discriminate |].
  assert (Hv : forall ps, update_permissions input = Some ps -> allValid ps).
  { intros ps Hps. apply checkEachPermission_iff.
    destruct (checkEachPermission getAllPermissions ps) as [e | []] eqn:Hc;
      [| reflexivity].
    rewrite (update_validation_error input st e ps Hps Hc) in H. discriminate. }
  exists role. split; [exact Hf |]. split; [| split; [exact Hv |]].
  - intros Hsys.
    rewrite (update_system_role input st role) in H; auto; [discriminate |].
    now apply checkPermissionsAreValid_ok.
  - rewrite Hrun in H. now inversion H.
Qed.

(** ** Failures write nothing *)

(** X2: whenever [create] or [update] ends in an error, whichever error it
    is, the store is the one it started from; when it returns a role, that
    role is the one entry added to the log of writes. *)
Theorem failure_writes_nothing :
  (forall ctx input st e,
      fst (create ctx input st) = inl e -> snd (create ctx input st) = st) /\
  (forall input st e,
      fst (update input st) = inl e -> snd (update input st) = st) /\
  (forall ctx input st role,
      fst (create ctx input st) = inr role ->
      store_saved (snd (create ctx input st)) = store_saved st ++ [role]) /\
  (forall input st role,
      fst (update input st) = inr role ->
      store_saved (snd (update input st)) = store_saved st ++ [role]).
Proof.
  repeat apply conj.
  - intros ctx input st e H.
    destruct (create_cases ctx input st) as [[e' He] | [ch Hc]];
      [now rewrite He |].
    rewrite Hc, createRoleForChannel_run in H. discriminate.
  - intros input st e H.
    destruct (update_cases input st) as [[e' He] | [role [_ Hrun]]];
      [now rewrite He |].
    rewrite Hrun in H. discriminate.
  - intros ctx input st role H.
    destruct (create_cases ctx input st) as [[e' He] | [ch Hc]];
      [rewrite He in H; discriminate |].
    rewrite Hc, createRoleForChannel_run in H |- *.
    inversion H. reflexivity.
  - intros input st role H.
    destruct (update_cases input st) as [[e' He] | [role0 [Hf Hrun]]];
      [rewrite He in H; discriminate |].
    pose proof (find_hasId_Some _ _ _ Hf) as Hid.
    rewrite Hrun in H |- *. inversion H.
    now rewrite (save_existing _ (update_id input)) by exact Hid.
Qed.

(** ** Who may create a role *)

Lemma includes_mayCreateOn (c : ID) (user : User) :
  includes (permissionsOn c (getUserChannelsPermissions user))
    Permission_CreateAdministrator = true <->
  mayCreateOn c user.
Proof. unfold mayCreateOn. now rewrite includes_In, permissionsOn_user. Qed.

Lemma targetChannelOf_None (ctx : RequestContext) (input : CreateRoleInput)
    (st : Store) :
  targetChannelOf ctx input st = None ->
  exists channelId,
    truthyId (create_channelId input) = Some channelId /\
    findChannel channelId st = None.
Proof.
  unfold targetChannelOf.
  destruct (truthyId (create_channelId input)) as [cid |]; [| discriminate].
  intros H. now exists cid.
Qed.

(** X3: [create] returns a role exactly when the permissions are valid, the
    target channel resolves, the request names an active user that exists,
    and one of that user's roles grants [CreateAdministrator] on the target
    channel.  The role returned then has the code, description and
    normalized permissions of the input, the target channel as its only
    channel, and is appended to the role table, the rest of the store
    staying as it was. *)
Theorem create_succeeds_iff (ctx : RequestContext) (input : CreateRoleInput)
    (st : Store) :
  ((exists role, fst (create ctx input st) = inr role) <->
   allValid (create_permissions input) /\
   exists channel activeUserId user,
     targetChannelOf ctx input st = Some channel /\
     truthyId (ctx_activeUserId ctx) = Some activeUserId /\
     findUser activeUserId st = Some user /\
     mayCreateOn (channel_id channel) user) /\
  (forall role,
      fst (create ctx input st) = inr role ->
      exists channel,
        targetChannelOf ctx input st = Some channel /\
        role = createdRole input channel st /\
        snd (create ctx input st) = inserted role st).
Proof.
  assert (Hsucc : forall role,
             fst (create ctx input st) = inr role ->
             exists channel activeUserId user,
               targetChannelOf ctx input st = Some channel /\
               truthyId (ctx_activeUserId ctx) = Some activeUserId /\
               findUser activeUserId st = Some user /\
               mayCreateOn (channel_id channel) user /\
               create ctx input st = createRoleForChannel input channel st).
  { intros role H.
    pose proof (create_success_valid ctx input st role H) as Hv.
    destruct (targetChannelOf ctx input st) as [ch |] eqn:Ht.
    - rewrite (create_run ctx input st ch Hv Ht) in H |- *.
      destruct (truthyId (ctx_activeUserId ctx)) as [uid |] eqn:Hu;
        [| discriminate].
      destruct (findUser uid st) as [user |] eqn:Hf; [| discriminate].
      destruct (includes _ _) eqn:Hinc; [| discriminate].
      exists ch, uid, user.
      split; [reflexivity |]. split; [reflexivity |]. split; [exact Hf |].
      split; [now apply includes_mayCreateOn | reflexivity].
    - destruct (targetChannelOf_None ctx input st Ht) as [cid [Hc Hf]].
      rewrite (create_channel_not_found ctx input st cid Hv Hc Hf) in H.
      discriminate. }
  split; [split |].
  - intros [role H]. split; [now apply create_success_valid with ctx st role |].
    destruct (Hsucc role H) as [ch [uid [user [Ht [Hu [Hf [Hm _]]]]]]].
    now exists ch, uid, user.
  - intros [Hv [ch [uid [user [Ht [Hu [Hf Hm]]]]]]].
    rewrite (create_run ctx input st ch Hv Ht), Hu, Hf.
    apply includes_mayCreateOn in Hm. rewrite Hm.
    rewrite createRoleForChannel_run. now eexists.
  - intros role H.
    destruct (Hsucc role H) as [ch [_ [_ [Ht [_ [_ [_ Hrun]]]]]]].
    exists ch. split; [exact Ht |].
    rewrite Hrun, createRoleForChannel_run in H |- *.
    inversion H. now split.
Qed.

(** X4: a [create] with valid permissions and a target channel that
    resolves, requested by an active user identifier that matches no user,
    fails with the not-found error of entity User, not with the forbidden
    error, and writes nothing. *)
Theorem create_unknown_user (ctx : RequestContext) (input : CreateRoleInput)
    (st : Store) (channel : Channel) (activeUserId : ID) :
  allValid (create_permissions input) ->
  targetChannelOf ctx input st = Some channel ->
  truthyId (ctx_activeUserId ctx) = Some activeUserId ->
  findUser activeUserId st = None ->
  create ctx input st = (inl (EntityNotFoundError "User" activeUserId), st).
Proof.
  intros Hv Ht Hu Hf. now rewrite (create_run ctx input st channel Hv Ht), Hu, Hf.
Qed.

(** X5: a [create] with valid permissions and a target channel that
    resolves, requested by a user none of whose roles grants
    [CreateAdministrator] on the target channel, fails with the forbidden
    error and writes nothing, whatever the user may do on other channels. *)
Theorem create_forbidden (ctx : RequestContext) (input : CreateRoleInput)
    (st : Store) (channel : Channel) (activeUserId : ID) (user : User) :
  allValid (create_permissions input) ->
  targetChannelOf ctx input st = Some channel ->
  truthyId (ctx_activeUserId ctx) = Some activeUserId ->
  findUser activeUserId st = Some user ->
  ~ mayCreateOn (channel_id channel) user ->
  create ctx input st = (inl ForbiddenError, st).
Proof.
  intros Hv Ht Hu Hf Hm.
  rewrite (create_run ctx input st channel Hv Ht), Hu, Hf.
  destruct (includes _ _) eqn:Hinc; [| reflexivity].
  exfalso. apply Hm. now apply includes_mayCreateOn.
Qed.

(** ** Falsy identifiers *)

Lemma truthyId_falsy (o : option ID) : truthyId o = None <-> falsy o.
Proof.
  unfold falsy. split.
  - destruct o as [[s | n] |]; simpl; auto.
    + destruct (String.eqb_spec s ""); simpl; [subst; auto | discriminate].
    + destruct (Z.eqb_spec n 0); simpl; [subst; auto | discriminate].
  - intros [H | [H | H]]; now subst.
Qed.

(** X6: [create] takes a [channelId] of 0 or of the empty string for no
    [channelId]: the role goes to the channel of the request, also when a
    channel with that identifier exists.  An [activeUserId] of 0 or of the
    empty string counts as no user: with valid permissions and a target
    channel that resolves the request is forbidden, also when that user
    exists and may create roles. *)
Theorem create_falsy_ids (ctx : RequestContext) (input : CreateRoleInput)
    (st : Store) :
  (falsy (create_channelId input) ->
   create ctx input st = create ctx (withChannelId input None) st) /\
  (falsy (ctx_activeUserId ctx) ->
   allValid (create_permissions input) ->
   forall channel,
     targetChannelOf ctx input st = Some channel ->
     create ctx input st = (inl ForbiddenError, st)).
Proof.
  split.
  - intros H. apply truthyId_falsy in H.
    unfold create. cbn [withChannelId create_channelId create_permissions].
    rewrite H. reflexivity.
  - intros H Hv ch Ht. apply truthyId_falsy in H.
    now rewrite (create_run ctx input st ch Hv Ht), H.
Qed.

(** ** Lookup by code after [create] *)

Lemma countByCode_app (code : string) (l1 l2 : list Role) :
  countByCode code (l1 ++ l2) = countByCode code l1 + countByCode code l2.
Proof. unfold countByCode. now rewrite filter_app, length_app. Qed.

(** X7: after a [create] that returned a role under a code that no
    stored role had, [getRoleByCode] on that code returns the role just
    created, and it is the only stored role with the code. *)
Theorem getRoleByCode_after_create (ctx : RequestContext)
    (input : CreateRoleInput) (st : Store) (role : Role) :
  fst (create ctx input st) = inr role ->
  find (fun r => role_code r =? create_code input) (store_roles st) = None ->
  let st' := snd (create ctx input st) in
  getRoleByCode (create_code input) st' = (inr (Some role), st') /\
  countByCode (create_code input) (store_roles st') = 1.
Proof.
  intros H Hnone st'. subst st'.
  destruct (create_cases ctx input st) as [[e He] | [ch Hc]];
    [rewrite He in H; discriminate |].
  rewrite Hc, createRoleForChannel_run in H |- *. inversion H; subst role.
  cbn [snd]. split.
  - unfold getRoleByCode, gets. cbn [inserted store_roles].
    rewrite find_app_last, Hnone.
    cbn [createdRole role_code]. now rewrite String.eqb_refl.
  - cbn [inserted store_roles]. rewrite countByCode_app.
    assert (E0 : countByCode (create_code input) (store_roles st) = 0).
    { unfold countByCode.
      destruct (filter _ (store_roles st)) as [| x t] eqn:Hfl; [reflexivity |].
      assert (Hx : In x (filter (fun r => role_code r =? create_code input)
                           (store_roles st)))
        by (rewrite Hfl; now left).
      apply filter_In in Hx. destruct Hx as [Hx1 Hx2].
      pose proof (find_none _ _ Hnone x Hx1) as Hx3. cbv beta in Hx3.
      congruence. }
    rewrite E0. unfold countByCode.
    cbn [filter createdRole role_code]. now rewrite String.eqb_refl.
Qed.

(** ** More on [update] *)

(** X8: an [update] with valid permissions whose identifier matches no
    stored role fails with the not-found error of entity Role that carries
    the identifier, and writes nothing. *)
Theorem update_missing_role (input : UpdateRoleInput) (st : Store) :
  (forall ps, update_permissions input = Some ps -> allValid ps) ->
  find (hasId (update_id input)) (store_roles st) = None ->
  update input st = (inl (EntityNotFoundError "Role" (update_id input)), st).
Proof.
  intros Hv Hf. unfold update, bind.
  rewrite checkPermissionsAreValid_ok by exact Hv.
  unfold findOne, gets. now rewrite Hf.
Qed.

(** X9: no [update] changes or removes a stored role that has the
    SuperAdmin or the Customer code, whichever identifier and fields the
    input holds. *)
Theorem update_keeps_system_roles (input : UpdateRoleInput) (st : Store)
    (r : Role) :
  In r (store_roles st) ->
  isSystemRole r ->
  In r (store_roles (snd (update input st))).
Proof.
  intros Hin Hsys.
  destruct (fst (update input st)) as [e | role'] eqn:Hres.
  - destruct (update_cases input st) as [[e' He] | [role [_ Hrun]]].
    + now rewrite He.
    + rewrite Hrun in Hres. discriminate.
  - destruct (update_success input st role' Hres)
      as [role [Hf [Hnot [_ Hrole']]]].
    pose proof (find_hasId_Some _ _ _ Hf) as Hid.
    destruct (update_cases input st) as [[e' He] | [role0 [Hf0 Hrun]]];
      [rewrite He in Hres; discriminate |].
    rewrite Hf in Hf0. inversion Hf0; subst role0.
    rewrite Hrun, (save_existing _ (update_id input)) by exact Hid.
    cbn [snd store_roles].
    destruct (upsertRole_split (update_id input) (updatedRole role input)
                role (store_roles st) Hf) as [pre [post [E1 E2]]].
    rewrite E2. rewrite E1 in Hin.
    apply in_app_or in Hin. apply in_or_app.
    destruct Hin as [Hin | [Hin | Hin]]; [now left | | right; now right].
    subst r. contradiction.
Qed.

Lemma updatedRole_idem (role : Role) (input : UpdateRoleInput) :
  updatedRole (updatedRole role input) input = updatedRole role input.
Proof.
  unfold updatedRole, patchEntity. cbn.
  destruct (update_code input), (update_description input),
    (update_permissions input); reflexivity.
Qed.

(** X10: repeating an update changes nothing more.  When an [update] of a
    role that is not a system role, with valid permissions and a code that is
    not one of the two protected codes, is run a second time on the store it
    left, it returns the same role and leaves the same role table. *)
Theorem update_twice (input : UpdateRoleInput) (st : Store) (role : Role) :
  (forall ps, update_permissions input = Some ps -> allValid ps) ->
  find (hasId (update_id input)) (store_roles st) = Some role ->
  ~ isSystemRole role ->
  (forall c, update_code input = Some c ->
             c <> SUPER_ADMIN_ROLE_CODE /\ c <> CUSTOMER_ROLE_CODE) ->
  let st1 := snd (update input st) in
  fst (update input st1) = fst (update input st) /\
  store_roles (snd (update input st1)) = store_roles st1.
Proof.
  intros Hv Hf Hnot Hcode st1. subst st1.
  pose proof (find_hasId_Some _ _ _ Hf) as Hid.
  assert (Hsa : role_code role <> SUPER_ADMIN_ROLE_CODE)
    by (intros E; apply Hnot; now left).
  assert (Hcu : role_code role <> CUSTOMER_ROLE_CODE)
    by (intros E; apply Hnot; now right).
  rewrite (update_run input st role Hv Hf Hsa Hcu). cbn [fst snd].
  set (r' := updatedRole role input).
  set (st1 := {| store_roles := upsertRole (update_id input) r' (store_roles st);
                 store_users := store_users st;
                 store_channels := store_channels st;
                 store_defaultChannel := store_defaultChannel st;
                 store_nextId := store_nextId st;
                 store_saved := store_saved st ++ [r'] |}).
  assert (Hr' : hasId (update_id input) r' = true)
    by now apply hasId_updatedRole.
  assert (Hf1 : find (hasId (update_id input)) (store_roles st1) = Some r').
  { cbn [st1 store_roles]. now apply find_upsertRole_same. }
  assert (Hcode' : role_code r' <> SUPER_ADMIN_ROLE_CODE /\
                   role_code r' <> CUSTOMER_ROLE_CODE).
  { unfold r', updatedRole, patchEntity. cbn.
    destruct (update_code input) as [c |] eqn:Ec; cbn; auto. }
  destruct Hcode' as [Hsa' Hcu'].
  rewrite (update_run input st1 r' Hv Hf1 Hsa' Hcu'). cbn [fst snd store_roles].
  unfold r'. rewrite updatedRole_idem. fold r'.
  split; [reflexivity |].
  cbn [st1 store_roles]. now apply upsertRole_idem.
Qed.

(** ** The bootstrap on any store *)

Lemma find_app_Some {A} (f : A -> bool) (l l' : list A) (x : A) :
  find f l = Some x -> find f (l ++ l') = Some x.
Proof.
  induction l as [| a l IH]; simpl; [discriminate |].
  now destruct (f a).
Qed.

Lemma save_new (r : Role) (st : Store) :
  role_id r = None ->
  save r st =
  (inr (withId r (IdNum (store_nextId st))),
   inserted (withId r (IdNum (store_nextId st))) st).
Proof. intros H. unfold save. now rewrite H. Qed.

(** The three ways the SuperAdmin step can go. *)
Lemma ensureSuperAdminRoleExists_cases (st : Store) :
  (find (fun r => role_code r =? SUPER_ADMIN_ROLE_CODE) (store_roles st) = None /\
   ensureSuperAdminRoleExists st =
   (inr tt,
    inserted (createdRole superAdminInput (store_defaultChannel st) st) st)) \/
  (exists r,
      find (fun r => role_code r =? SUPER_ADMIN_ROLE_CODE) (store_roles st)
      = Some r /\
      forallb (includes (role_permissions r)) allPermissionsExceptOwner = true /\
      ensureSuperAdminRoleExists st = (inr tt, st)) \/
  (exists r,
      find (fun r => role_code r =? SUPER_ADMIN_ROLE_CODE) (store_roles st)
      = Some r /\
      forallb (includes (role_permissions r)) allPermissionsExceptOwner = false /\
      ensureSuperAdminRoleExists st =
      (inr tt, snd (save (withPermissions r allPermissionsExceptOwner) st))).
Proof.
  destruct (find _ (store_roles st)) as [r |] eqn:Hf.
  - destruct (forallb (includes (role_permissions r)) allPermissionsExceptOwner)
      eqn:Hall; right; [left | right]; exists r; repeat split; auto.
    + now apply ensureSuperAdminRoleExists_complete with r.
    + now apply ensureSuperAdminRoleExists_heal.
  - left. split; [reflexivity |]. now apply ensureSuperAdminRoleExists_absent.
Qed.

Lemma ensureCustomerRoleExists_cases (st : Store) :
  (exists r,
      find (fun r => role_code r =? CUSTOMER_ROLE_CODE) (store_roles st) = Some r /\
      ensureCustomerRoleExists st = (inr tt, st)) \/
  (find (fun r => role_code r =? CUSTOMER_ROLE_CODE) (store_roles st) = None /\
   ensureCustomerRoleExists st =
   (inr tt,
    inserted (createdRole customerInput (store_defaultChannel st) st) st)).
Proof.
  destruct (find _ (store_roles st)) as [r |] eqn:Hf.
  - left. exists r. split; [reflexivity |].
    now apply ensureCustomerRoleExists_present with r.
  - right. split; [reflexivity |]. now apply ensureCustomerRoleExists_absent.
Qed.

Lemma hasAllPermissions_refl :
  forallb (includes allPermissionsExceptOwner) allPermissionsExceptOwner = true.
Proof. apply forallb_includes_incl, incl_refl. Qed.

(** After the SuperAdmin step a lookup by the SuperAdmin code finds a
    role; when every stored role has an identifier, that role has every
    catalog permission other than [Owner]. *)
Lemma ensureSuperAdminRoleExists_found (st : Store) :
  exists r,
    find (fun r => role_code r =? SUPER_ADMIN_ROLE_CODE)
      (store_roles (snd (ensureSuperAdminRoleExists st))) = Some r /\
    ((forall x, In x (store_roles st) -> role_id x <> None) ->
     forallb (includes (role_permissions r)) allPermissionsExceptOwner = true).
Proof.
  destruct (ensureSuperAdminRoleExists_cases st)
    as [[Hf Hrun] | [[r [Hf [Hall Hrun]]] | [r [Hf [Hall Hrun]]]]];
    rewrite Hrun; cbn [snd].
  - eexists. split.
    + cbn [inserted store_roles]. rewrite find_app_last, Hf.
      cbn [createdRole superAdminInput create_code role_code].
      now rewrite String.eqb_refl.
    + intros _. apply createdRole_superAdmin_complete.
  - exists r. now split.
  - pose proof (find_some _ _ Hf) as [Hin Hcode].
    apply String.eqb_eq in Hcode.
    destruct (role_id r) as [i |] eqn:Hid.
    + exists (withPermissions r allPermissionsExceptOwner). split.
      * rewrite (save_existing _ i) by exact Hid. cbn [snd store_roles].
        now apply find_code_upsertRole with r.
      * intros _. apply hasAllPermissions_refl.
    + exists r. split.
      * rewrite save_new by exact Hid. cbn [snd inserted store_roles].
        now apply find_app_Some.
      * intros Hids. exfalso. now apply (Hids r Hin).
Qed.

(** The Customer step only ever adds rows at the end, and leaves a role
    with the Customer code. *)
Lemma ensureCustomerRoleExists_found (st : Store) :
  exists extra r,
    fst (ensureCustomerRoleExists st) = inr tt /\
    store_roles (snd (ensureCustomerRoleExists st)) = store_roles st ++ extra /\
    find (fun r => role_code r =? CUSTOMER_ROLE_CODE)
      (store_roles (snd (ensureCustomerRoleExists st))) = Some r.
Proof.
  destruct (ensureCustomerRoleExists_cases st) as [[r [Hf Hrun]] | [Hf Hrun]];
    rewrite Hrun; cbn [fst snd].
  - exists [], r. rewrite app_nil_r. auto.
  - eexists [_], _. split; [reflexivity |]. split; [reflexivity |].
    cbn [inserted store_roles]. rewrite find_app_last, Hf.
    cbn [createdRole customerInput create_code role_code].
    now rewrite String.eqb_refl.
Qed.

Lemma getSuperAdminRole_found (st : Store) (r : Role) :
  find (fun r => role_code r =? SUPER_ADMIN_ROLE_CODE) (store_roles st) = Some r ->
  getSuperAdminRole st = (inr r, st) /\ role_code r = SUPER_ADMIN_ROLE_CODE.
Proof.
  intros H. unfold getSuperAdminRole, bind, getRoleByCode, gets. rewrite H.
  split; [reflexivity |].
  apply find_some in H. now apply String.eqb_eq.
Qed.

Lemma getCustomerRole_found (st : Store) (r : Role) :
  find (fun r => role_code r =? CUSTOMER_ROLE_CODE) (store_roles st) = Some r ->
  getCustomerRole st = (inr r, st) /\ role_code r = CUSTOMER_ROLE_CODE.
Proof.
  intros H. unfold getCustomerRole, bind, getRoleByCode, gets. rewrite H.
  split; [reflexivity |].
  apply find_some in H. now apply String.eqb_eq.
Qed.

(** [initRoles] in terms of its two steps. *)
Lemma initRoles_run (st : Store) :
  initRoles st =
  (inr tt, snd (ensureCustomerRoleExists (snd (ensureSuperAdminRoleExists st)))).
Proof.
  rewrite initRoles_sequence.
  destruct (ensureCustomerRoleExists_found (snd (ensureSuperAdminRoleExists st)))
    as [_ [_ [H _]]].
  destruct (ensureCustomerRoleExists _) as [res st']. simpl in H |- *.
  now subst res.
Qed.

(** X11: on every store, [initRoles] succeeds, and on the store it leaves
    [getSuperAdminRole] and [getCustomerRole] each return a role with the
    code asked for instead of the internal error. *)
Theorem initRoles_provides_system_roles (st : Store) :
  exists st1 sa cu,
    initRoles st = (inr tt, st1) /\
    getSuperAdminRole st1 = (inr sa, st1) /\
    role_code sa = SUPER_ADMIN_ROLE_CODE /\
    getCustomerRole st1 = (inr cu, st1) /\
    role_code cu = CUSTOMER_ROLE_CODE.
Proof.
  destruct (ensureSuperAdminRoleExists_found st) as [sa [Hsa _]].
  destruct (ensureCustomerRoleExists_found (snd (ensureSuperAdminRoleExists st)))
    as [extra [cu [_ [Hroles Hcu]]]].
  eexists. exists sa, cu. split; [apply initRoles_run |].
  assert (Hsa' : find (fun r => role_code r =? SUPER_ADMIN_ROLE_CODE)
                   (store_roles
                      (snd (ensureCustomerRoleExists
                              (snd (ensureSuperAdminRoleExists st))))) = Some sa).
  { rewrite Hroles. now apply find_app_Some. }
  destruct (getSuperAdminRole_found _ _ Hsa') as [H1 H2].
  destruct (getCustomerRole_found _ _ Hcu) as [H3 H4].
  auto.
Qed.

(** X12: on every store whose roles all have an identifier, the store that
    [initRoles] leaves is a fixed point: a second [initRoles] returns it
    unchanged, nothing written, and its SuperAdmin role has every catalog
    permission other than [Owner]. *)
Theorem initRoles_fixed_point (st : Store) :
  (forall x, In x (store_roles st) -> role_id x <> None) ->
  let st1 := snd (initRoles st) in
  initRoles st1 = (inr tt, st1) /\
  exists sa,
    getSuperAdminRole st1 = (inr sa, st1) /\
    incl allPermissionsExceptOwner (role_permissions sa).
Proof.
  intros Hids st1. subst st1. rewrite (initRoles_run st). cbn [snd].
  destruct (ensureSuperAdminRoleExists_found st) as [sa [Hsa Hall]].
  specialize (Hall Hids).
  destruct (ensureCustomerRoleExists_found (snd (ensureSuperAdminRoleExists st)))
    as [extra [cu [_ [Hroles Hcu]]]].
  set (st1 := snd (ensureCustomerRoleExists (snd (ensureSuperAdminRoleExists st))))
    in *.
  assert (Hsa' : find (fun r => role_code r =? SUPER_ADMIN_ROLE_CODE)
                   (store_roles st1) = Some sa).
  { rewrite Hroles. now apply find_app_Some. }
  split.
  - rewrite initRoles_sequence.
    rewrite (ensureSuperAdminRoleExists_complete st1 sa Hsa' Hall). cbn [snd].
    now apply ensureCustomerRoleExists_present with cu.
  - exists sa. split; [now apply getSuperAdminRole_found |].
    now apply forallb_includes_incl.
Qed.

(** X13: on a store whose roles have pairwise different identifiers,
    [initRoles] leaves every role whose code is not the SuperAdmin code in
    the table as it is: healing the SuperAdmin role touches no other role. *)
Theorem initRoles_keeps_other_roles (st : Store) (x : Role) :
  NoDup (map role_id (store_roles st)) ->
  In x (store_roles st) ->
  role_code x <> SUPER_ADMIN_ROLE_CODE ->
  In x (store_roles (snd (initRoles st))).
Proof.
  intros Hnd Hin Hcode. rewrite initRoles_run. cbn [snd].
  destruct (ensureCustomerRoleExists_found (snd (ensureSuperAdminRoleExists st)))
    as [extra [_ [_ [Hroles _]]]].
  rewrite Hroles. apply in_or_app. left.
  destruct (ensureSuperAdminRoleExists_cases st)
    as [[Hf Hrun] | [[r [Hf [Hall Hrun]]] | [r [Hf [Hall Hrun]]]]];
    rewrite Hrun; cbn [snd].
  - cbn [inserted store_roles]. apply in_or_app. now left.
  - exact Hin.
  - pose proof (find_some _ _ Hf) as [Hr Hrc]. apply String.eqb_eq in Hrc.
    destruct (role_id r) as [i |] eqn:Hid.
    + rewrite (save_existing _ i) by exact Hid. cbn [snd store_roles].
      destruct (find (hasId i) (store_roles st)) as [y |] eqn:Hy.
      * assert (y = r).
        { pose proof (find_some _ _ Hy) as [Hyin _].
          apply (NoDup_map_In_eq role_id (store_roles st)); auto.
          rewrite (find_hasId_Some _ _ _ Hy). now symmetry. }
        subst y.
        destruct (upsertRole_split i (withPermissions r allPermissionsExceptOwner)
                    r (store_roles st) Hy) as [pre [post [E1 E2]]].
        rewrite E2. rewrite E1 in Hin.
        apply in_app_or in Hin. apply in_or_app.
        destruct Hin as [Hin | [Hin | Hin]]; [now left | | right; now right].
        subst x. congruence.
      * rewrite upsertRole_absent by exact Hy. apply in_or_app. now left.
    + rewrite save_new by exact Hid. cbn [snd inserted store_roles].
      apply in_or_app. now left.
Qed.

(** ** Stored permissions stay in the catalog *)

Lemma permissionsInCatalog_normalized (ps : list Permission) (r : Role) :
  In Permission_Authenticated Permission_values ->
  allValid ps ->
  role_permissions r = unique (Permission_Authenticated :: ps) ->
  permissionsInCatalog r.
Proof.
  intros HA Hv E. unfold permissionsInCatalog. rewrite E. split.
  - apply unique_head.
  - intros p Hp. apply (unique_In (Permission_Authenticated :: ps)) in Hp.
    destruct Hp as [Hp | Hp].
    + now subst p.
    + unfold allValid in Hv. rewrite Forall_forall in Hv.
      apply (Hv p Hp).
Qed.

Lemma allValid_allPermissionsExceptOwner : allValid allPermissionsExceptOwner.
Proof.
  apply Forall_forall. intros p Hp.
  now apply In_allPermissionsExceptOwner in Hp.
Qed.

Lemma storeInCatalog_inserted (r : Role) (st : Store) :
  storeInCatalog st -> permissionsInCatalog r -> storeInCatalog (inserted r st).
Proof.
  intros Hst Hr x Hx. cbn [inserted store_roles] in Hx.
  apply in_app_or in Hx. destruct Hx as [Hx | [Hx | []]]; [auto | now subst].
Qed.

Lemma storeInCatalog_save (r : Role) (st : Store) :
  storeInCatalog st -> permissionsInCatalog r ->
  storeInCatalog (snd (save r st)).
Proof.
  intros Hst Hr. destruct (role_id r) as [i |] eqn:Hid.
  - rewrite (save_existing _ i) by exact Hid. intros x Hx.
    cbn [snd store_roles] in Hx.
    apply In_upsertRole_inv in Hx. destruct Hx as [Hx | Hx]; [now subst | auto].
  - rewrite save_new by exact Hid. cbn [snd].
    now apply storeInCatalog_inserted.
Qed.

(** X14: when [Authenticated] is a member of the catalog, [create],
    [update] and [initRoles] keep this invariant of the role table: every
    stored role has [Authenticated] among its permissions and no permission
    outside the catalog. *)
Theorem storeInCatalog_preserved (st : Store) :
  In Permission_Authenticated Permission_values ->
  storeInCatalog st ->
  (forall ctx input, storeInCatalog (snd (create ctx input st))) /\
  (forall input, storeInCatalog (snd (update input st))) /\
  storeInCatalog (snd (initRoles st)).
Proof.
  intros HA Hst. repeat apply conj.
  - intros ctx input.
    destruct (fst (create ctx input st)) as [e | role] eqn:Hres.
    + destruct (create_cases ctx input st) as [[e' He] | [ch Hc]];
        [now rewrite He |].
      rewrite Hc, createRoleForChannel_run in Hres. discriminate.
    + pose proof (create_success_valid ctx input st role Hres) as Hv.
      destruct (create_cases ctx input st) as [[e' He] | [ch Hc]];
        [now rewrite He |].
      rewrite Hc, createRoleForChannel_run. cbn [snd].
      apply storeInCatalog_inserted; [exact Hst |].
      now apply permissionsInCatalog_normalized with (create_permissions input).
  - intros input.
    destruct (fst (update input st)) as [e | role'] eqn:Hres.
    + destruct (update_cases input st) as [[e' He] | [role [_ Hrun]]];
        [now rewrite He |].
      rewrite Hrun in Hres. discriminate.
    + destruct (update_success input st role' Hres)
        as [role [Hf [_ [Hv Hrole']]]].
      destruct (update_cases input st) as [[e' He] | [role0 [Hf0 Hrun]]];
        [rewrite He in Hres; discriminate |].
      rewrite Hf in Hf0. inversion Hf0; subst role0.
      rewrite Hrun. cbn [snd].
      apply storeInCatalog_save; [exact Hst |].
      destruct (update_permissions input) as [ps |] eqn:Hps.
      * apply permissionsInCatalog_normalized with ps; auto.
        unfold updatedRole, patchEntity. cbn. now rewrite Hps.
      * assert (E : role_permissions (updatedRole role input)
                    = role_permissions role).
        { unfold updatedRole, patchEntity. cbn. now rewrite Hps. }
        unfold permissionsInCatalog. rewrite E.
        apply Hst. apply find_some in Hf. tauto.
  - rewrite initRoles_run. cbn [snd].
    assert (HstA : storeInCatalog (snd (ensureSuperAdminRoleExists st))).
    { destruct (ensureSuperAdminRoleExists_cases st)
        as [[Hf Hrun] | [[r [Hf [Hall Hrun]]] | [r [Hf [Hall Hrun]]]]];
        rewrite Hrun; cbn [snd].
      - apply storeInCatalog_inserted; [exact Hst |].
        apply permissionsInCatalog_normalized with allPermissionsExceptOwner;
          auto using allValid_allPermissionsExceptOwner.
      - exact Hst.
      - apply storeInCatalog_save; [exact Hst |].
        unfold permissionsInCatalog, withPermissions. cbn [role_permissions].
        split.
        + apply In_allPermissionsExceptOwner. split; [exact HA | discriminate].
        + intros p Hp. now apply In_allPermissionsExceptOwner in Hp. }
    destruct (ensureCustomerRoleExists_cases (snd (ensureSuperAdminRoleExists st)))
      as [[r [Hf Hrun]] | [Hf Hrun]]; rewrite Hrun; cbn [snd].
    + exact HstA.
    + apply storeInCatalog_inserted; [exact HstA |].
      apply permissionsInCatalog_normalized with [Permission_Authenticated];
        auto.
      constructor; [exact HA | constructor].
Qed.

(** ** A granted permission takes effect *)

Lemma loadUser_holds (st : Store) (row : UserRow) (r : Role) (i : ID) :
  In r (store_roles st) ->
  hasId i r = true ->
  In i (userRow_roleIds row) ->
  In r (user_roles (loadUser st row)).
Proof.
  intros Hin Hid Hi. unfold loadUser. cbn [user_roles].
  apply filter_In. split; [exact Hin |].
  apply existsb_exists. now exists i.
Qed.

(** X15: after an [update] that gives a role a permissions list, every
    user who holds the role has [Authenticated] and each permission of the
    list on each channel of the role: [userHasPermissionOnChannel] on the
    store the update left answers true. *)
Theorem update_grants (input : UpdateRoleInput) (st : Store) (role : Role)
    (ps : list Permission) (row : UserRow) (userId : ID) (channel : Channel)
    (p : Permission) :
  update_permissions input = Some ps ->
  allValid ps ->
  find (hasId (update_id input)) (store_roles st) = Some role ->
  ~ isSystemRole role ->
  find (fun u => idsAreEqual (userRow_id u) userId) (store_users st) = Some row ->
  In (update_id input) (userRow_roleIds row) ->
  In channel (role_channels role) ->
  p = Permission_Authenticated \/ In p ps ->
  let st' := snd (update input st) in
  userHasPermissionOnChannel userId (channel_id channel) p st' = (inr true, st').
Proof.
  intros Hps Hv Hf Hnot Hrow Hheld Hch Hp st'. subst st'.
  assert (Hv' : forall ps', update_permissions input = Some ps' -> allValid ps').
  { intros ps' E. rewrite Hps in E. inversion E. now subst. }
  assert (Hsa : role_code role <> SUPER_ADMIN_ROLE_CODE)
    by (intros E; apply Hnot; now left).
  assert (Hcu : role_code role <> CUSTOMER_ROLE_CODE)
    by (intros E; apply Hnot; now right).
  pose proof (find_hasId_Some _ _ _ Hf) as Hid.
  rewrite (update_run input st role Hv' Hf Hsa Hcu). cbn [snd].
  rewrite userHasPermissionOnChannel_run.
  unfold findUser. cbn [store_users]. rewrite Hrow. cbn [option_map].
  f_equal. f_equal. apply includes_In, permissionsOn_user.
  exists (updatedRole role input). split.
  - apply loadUser_holds with (update_id input); auto.
    + cbn [store_roles]. apply In_upsertRole.
    + now apply hasId_updatedRole.
  - split.
    + exists channel. split; [exact Hch | apply idsAreEqual_refl].
    + unfold updatedRole, patchEntity. cbn. rewrite Hps. cbn [orElse].
      apply (unique_In (Permission_Authenticated :: ps)).
      destruct Hp as [Hp | Hp]; [left; now symmetry | now right].
Qed.

End RoleService.

(** * Concrete runs *)

Example userHasPermissionOnChannel_editor :
  userHasPermissionOnChannel (IdNum 2) (IdNum 1) "ReadCatalog" sampleStore
  = (inr true, sampleStore) /\
  userHasPermissionOnChannel (IdNum 2) (IdNum 1) "CreateAdministrator" sampleStore
  = (inr false, sampleStore) /\
  userHasPermissionOnChannel (IdNum 2) (IdNum 2) "ReadCatalog" sampleStore
  = (inr false, sampleStore).
Proof. repeat split. Qed.

Example create_editor :
  let input :=
    {| create_channelId := None; create_code := "catalog-reader";
       create_description := "Reads the catalog";
       create_permissions := ["ReadCatalog"] |} in
  exists st',
    create sampleCatalog adminContext input sampleStore =
    (inr {| role_id := Some (IdNum 4); role_code := "catalog-reader";
            role_description := "Reads the catalog";
            role_permissions := ["Authenticated"; "ReadCatalog"];
            role_channels := [defaultChannel] |}, st').
Proof. eexists. reflexivity. Qed.

(** ** The theorems at the sample store *)

Lemma sample_In (x : string) (l : list string) :
  includes l x = true -> In x l.
Proof. apply includes_In. Qed.

Lemma sample_not_In (x : string) (l : list string) :
  includes l x = false -> ~ In x l.
Proof. intros H Hin. apply includes_In in Hin. congruence. Qed.

Lemma sample_allValid (ps : list Permission) :
  forallb (includes sampleCatalog) ps = true -> allValid sampleCatalog ps.
Proof.
  intros H. apply Forall_forall. intros p Hp.
  apply includes_In. rewrite forallb_forall in H. now apply H.
Qed.

(** The editor reads the catalog on the default channel through the editor
    role; a user that does not exist is reported as such. *)
Lemma userHasPermissionOnChannel_spec_witness :
  userHasPermissionOnChannel (IdNum 2) (IdNum 1) "ReadCatalog" sampleStore
  = (inr true, sampleStore) /\
  userHasPermissionOnChannel (IdNum 9) (IdNum 1) "ReadCatalog" sampleStore
  = (inl (EntityNotFoundError "User" (IdNum 9)), sampleStore).
Proof.
  split.
  - pose proof (userHasPermissionOnChannel_spec
                  (IdNum 2) (IdNum 1) "ReadCatalog" sampleStore) as H.
    change (findUser (IdNum 2) sampleStore)
      with (Some {| user_id := IdNum 2; user_roles := [editorRole] |}) in H.
    cbv beta iota in H.
    destruct H as [b [Hrun [Hiff _]]].
    rewrite Hrun. f_equal. f_equal. apply Hiff.
    exists editorRole. split; [now left |]. split.
    + exists defaultChannel. split; [now left | reflexivity].
    + right. now left.
  - exact (userHasPermissionOnChannel_spec
             (IdNum 9) (IdNum 1) "ReadCatalog" sampleStore).
Defined.



Lemma invalid_permission_rejected_witness :
  Exists (fun p => ~ In p sampleCatalog) ["ReadCatalog"; "NotARealPermission"; "Other"] /\
  (forall ctx input st,
      create_permissions input = ["ReadCatalog"; "NotARealPermission"; "Other"] ->
      create sampleCatalog ctx input st =
      (inl (UserInputError "error.permission-invalid" "NotARealPermission"), st)).
Proof.
  assert (HE : Exists (fun p => ~ In p sampleCatalog)
                 ["ReadCatalog"; "NotARealPermission"; "Other"]).
  { right. left. now apply sample_not_In. }
  split; [exact HE |].
  destruct (invalid_permission_rejected sampleCatalog superAdminCode
              customerCode _ HE)
    as [pre [p [post [E [Hpre [Hp [Hcreate _]]]]]]].
  assert (Hfirst : p = "NotARealPermission").
  { destruct pre as [| a pre].
    - simpl in E. inversion E; subst. exfalso. apply Hp.
      now apply sample_In.
    - destruct pre as [| b pre]; [simpl in E; now inversion E |].
      inversion E; subst. inversion Hpre as [| ? ? _ Hrest]; subst.
      inversion Hrest as [| ? ? Hb _]; subst.
      exfalso. revert Hb. now apply sample_not_In. }
  subst p. exact Hcreate.
Defined.

Lemma persisted_roles_normalized_witness :
  (exists role,
      fst (update sampleCatalog superAdminCode customerCode editorUpdate sampleStore)
      = inr role /\
      role_permissions role = ["Authenticated"; "UpdateCatalog"]) /\
  (exists role,
      snd (ensureCustomerRoleExists customerCode customerDescription emptyStore)
      = inserted role emptyStore /\
      normalized role).
Proof.
  pose proof (persisted_roles_normalized sampleCatalog superAdminCode
                superAdminDescription customerCode customerDescription)
    as [_ [Hupdate [_ Hcustomer]]].
  split.
  - destruct (Hupdate editorUpdate _ sampleStore eq_refl)
      as [written [_ [_ Hrole]]].
    eexists. split; [reflexivity |].
    now destruct (Hrole _ eq_refl) as [_ [Hperms _]].
  - destruct (Hcustomer emptyStore eq_refl) as [role [Hst [_ Hn]]].
    exists role. now split.
Defined.

Lemma initRoles_idempotent_witness :
  In Permission_Authenticated sampleCatalog /\
  store_roles emptyStore = [] /\
  exists st1,
    initRoles sampleCatalog superAdminCode superAdminDescription customerCode
      customerDescription emptyStore = (inr tt, st1) /\
    initRoles sampleCatalog superAdminCode superAdminDescription customerCode
      customerDescription st1 = (inr tt, st1) /\
    countByCode superAdminCode (store_roles st1) = 1 /\
    countByCode customerCode (store_roles st1) = 1.
Proof.
  assert (HA : In Permission_Authenticated sampleCatalog) by now left.
  split; [exact HA |]. split; [reflexivity |].
  destruct (initRoles_idempotent sampleCatalog superAdminCode
              superAdminDescription customerCode customerDescription
              emptyStore HA eq_refl)
    as [st1 [H1 [H2 [H3 [H4 _]]]]].
  exists st1. auto.
Defined.

(** The store after the bootstrap ran on the empty store. *)
Example initRoles_emptyStore :
  store_roles
    (snd (initRoles sampleCatalog superAdminCode superAdminDescription
            customerCode customerDescription emptyStore))
  = [ {| role_id := Some (IdNum 1);
         role_code := superAdminCode;
         role_description := superAdminDescription;
         role_permissions :=
           ["Authenticated"; "CreateAdministrator"; "ReadCatalog";
            "UpdateCatalog"];
         role_channels := [defaultChannel] |};
      {| role_id := Some (IdNum 2);
         role_code := customerCode;
         role_description := customerDescription;
         role_permissions := ["Authenticated"];
         role_channels := [defaultChannel] |} ].
Proof. reflexivity. Qed.

(** Healing overwrites: the permission of the prior set that the catalog
    no longer knows is gone after the SuperAdmin step. *)
Lemma superAdmin_healing_counterexample :
  find (fun r => role_code r =? superAdminCode) (store_roles legacyStore)
  = Some legacySuperAdminRole /\
  In "LegacyPermission" (role_permissions legacySuperAdminRole) /\
  exists healed,
    find (fun r => role_code r =? superAdminCode)
      (store_roles
         (snd (ensureSuperAdminRoleExists sampleCatalog superAdminCode
                 superAdminDescription legacyStore)))
    = Some healed /\
    role_permissions healed =
    ["Authenticated"; "CreateAdministrator"; "ReadCatalog"; "UpdateCatalog"] /\
    ~ In "LegacyPermission" (role_permissions healed) /\
    ~ incl (role_permissions legacySuperAdminRole) (role_permissions healed).
Proof.
  split; [reflexivity |]. split; [right; now left |].
  eexists. split; [reflexivity |]. split; [reflexivity |].
  assert (Hnot : ~ In "LegacyPermission"
                   ["Authenticated"; "CreateAdministrator"; "ReadCatalog";
                    "UpdateCatalog"])
    by now apply sample_not_In.
  split; [exact Hnot |].
  intros Hincl. apply Hnot. apply Hincl. right. now left.
Qed.

Lemma ensureSuperAdminRoleExists_spec_witness :
  find (fun x => role_code x =? superAdminCode) (store_roles legacyStore)
  = Some legacySuperAdminRole /\
  role_id legacySuperAdminRole = Some (IdNum 1) /\
  exists r' st',
    ensureSuperAdminRoleExists sampleCatalog superAdminCode
      superAdminDescription legacyStore = (inr tt, st') /\
    find (fun x => role_code x =? superAdminCode) (store_roles st') = Some r' /\
    role_permissions r' = allPermissionsExceptOwner sampleCatalog.
Proof.
  split; [reflexivity |]. split; [reflexivity |].
  destruct (ensureSuperAdminRoleExists_spec sampleCatalog superAdminCode
              superAdminDescription legacyStore legacySuperAdminRole (IdNum 1)
              eq_refl eq_refl)
    as [r' [st' [Hrun [Hfind [_ [_ Hheal]]]]]].
  exists r', st'. split; [exact Hrun |]. split; [exact Hfind |].
  destruct Hheal as [Hr' _].
  - intros Hincl.
    assert (Hin : In "ReadCatalog" (role_permissions legacySuperAdminRole)).
    { apply Hincl. now apply sample_In. }
    revert Hin. now apply sample_not_In.
  - now rewrite Hr'.
Defined.

(** Without an active user, [create] on a channel that does not exist is
    answered with the not-found error, and on one that exists with the
    forbidden error. *)
Lemma create_without_active_user_counterexample :
  allValid sampleCatalog (create_permissions createOnMissingChannel) /\
  ctx_activeUserId anonymousContext = None /\
  create sampleCatalog anonymousContext createOnMissingChannel sampleStore
  = (inl (EntityNotFoundError "Channel" (IdNum 99)), sampleStore) /\
  create sampleCatalog anonymousContext createOnMissingChannel sampleStore
  <> (inl ForbiddenError, sampleStore) /\
  create sampleCatalog anonymousContext createOnSecondChannel sampleStore
  = (inl ForbiddenError, sampleStore).
Proof.
  split; [now apply sample_allValid |]. split; [reflexivity |].
  split; [reflexivity |]. split; [| reflexivity].
  intros H. vm_compute in H. discriminate.
Qed.

Lemma create_without_active_user_witness :
  allValid sampleCatalog (create_permissions createOnSecondChannel) /\
  ctx_activeUserId anonymousContext = None /\
  create sampleCatalog anonymousContext createOnSecondChannel sampleStore
  = (inl ForbiddenError, sampleStore).
Proof.
  assert (Hv : allValid sampleCatalog (create_permissions createOnSecondChannel))
    by now apply sample_allValid.
  split; [exact Hv |]. split; [reflexivity |].
  exact (create_without_active_user sampleCatalog anonymousContext
           createOnSecondChannel sampleStore Hv eq_refl).
Defined.

Lemma update_partial_patch_witness :
  find (hasId (update_id editorUpdate)) (store_roles sampleStore)
  = Some editorRole /\
  exists role',
    fst (update sampleCatalog superAdminCode customerCode editorUpdate sampleStore)
    = inr role' /\
    role_code role' = "editor" /\
    role_description role' = "Edits" /\
    role_channels role' = [defaultChannel].
Proof.
  split; [reflexivity |].
  destruct (update_partial_patch sampleCatalog superAdminCode customerCode
              editorUpdate sampleStore editorRole eq_refl)
    as [role' [_ [_ [Hch [Hcode [_ [_ [_ Hok]]]]]]]].
  exists role'.
  destruct Hok as [Hrun [_ [Hdesc _]]].
  - discriminate.
  - discriminate.
  - intros ps E. inversion E; subst ps. now apply sample_allValid.
  - split; [exact Hrun |]. split; [now apply Hcode |].
    split; [now apply Hdesc | exact Hch].
Defined.

Lemma ensureCustomerRoleExists_spec_witness :
  ensureCustomerRoleExists customerCode customerDescription sampleStore
  = (inr tt, sampleStore) /\
  exists role,
    ensureCustomerRoleExists customerCode customerDescription legacyStore
    = (inr tt, inserted role legacyStore) /\
    role_permissions role = [Permission_Authenticated] /\
    role_channels role = [defaultChannel].
Proof.
  split.
  - exact (ensureCustomerRoleExists_spec customerCode customerDescription
             sampleStore).
  - destruct (ensureCustomerRoleExists_spec customerCode customerDescription
                legacyStore) as [role [Hrun [_ [_ [Hp [Hc _]]]]]].
    exists role. auto.
Defined.

Lemma Owner_can_be_granted_witness :
  In Permission_Owner sampleCatalog /\
  exists role st',
    create sampleCatalog adminContext createOwnerRole sampleStore
    = (inr role, st') /\
    In role (store_roles st') /\
    In Permission_Owner (role_permissions role).
Proof.
  assert (HO : In Permission_Owner sampleCatalog) by now apply sample_In.
  split; [exact HO |].
  destruct (Owner_can_be_granted sampleCatalog superAdminCode customerCode HO)
    as [_ [_ [_ [_ [Hcreate _]]]]].
  apply (Hcreate adminContext createOwnerRole sampleStore (IdNum 1)
           defaultChannel).
  - now apply sample_allValid.
  - now left.
  - reflexivity.
  - reflexivity.
  - reflexivity.
Defined.

(** ** The further properties at the sample stores *)

Lemma sample_storeInCatalog : storeInCatalog sampleCatalog sampleStore.
Proof.
  intros r Hr. simpl in Hr.
  destruct Hr as [Hr | [Hr | [Hr | []]]]; subst r; split;
    try (now apply sample_In);
    intros p Hp; apply sample_In; simpl in Hp;
    repeat (destruct Hp as [Hp | Hp]; [subst p; reflexivity |]);
    destruct Hp.
Qed.

Lemma initRoles_provides_system_roles_witness :
  exists st1 sa cu,
    initRoles sampleCatalog superAdminCode superAdminDescription customerCode
      customerDescription legacyStore = (inr tt, st1) /\
    getSuperAdminRole superAdminCode st1 = (inr sa, st1) /\
    getCustomerRole customerCode st1 = (inr cu, st1).
Proof.
  destruct (initRoles_provides_system_roles sampleCatalog superAdminCode
              superAdminDescription customerCode customerDescription legacyStore)
    as [st1 [sa [cu [H1 [H2 [_ [H3 _]]]]]]].
  now exists st1, sa, cu.
Defined.

Lemma initRoles_fixed_point_witness :
  (forall x, In x (store_roles agedStore) -> role_id x <> None) /\
  initRoles sampleCatalog superAdminCode superAdminDescription customerCode
    customerDescription
    (snd (initRoles sampleCatalog superAdminCode superAdminDescription
            customerCode customerDescription agedStore))
  = (inr tt,
     snd (initRoles sampleCatalog superAdminCode superAdminDescription
            customerCode customerDescription agedStore)).
Proof.
  assert (Hids : forall x, In x (store_roles agedStore) -> role_id x <> None).
  { intros x Hx. simpl in Hx.
    destruct Hx as [Hx | [Hx | [Hx | []]]]; subst x; discriminate. }
  split; [exact Hids |].
  exact (proj1 (initRoles_fixed_point sampleCatalog superAdminCode
                  superAdminDescription customerCode customerDescription
                  agedStore Hids)).
Defined.

Lemma failure_writes_nothing_witness :
  fst (create sampleCatalog anonymousContext createReader sampleStore)
  = inl ForbiddenError /\
  snd (create sampleCatalog anonymousContext createReader sampleStore)
  = sampleStore.
Proof.
  split; [reflexivity |].
  exact (proj1 (failure_writes_nothing sampleCatalog superAdminCode customerCode)
           anonymousContext createReader sampleStore ForbiddenError eq_refl).
Defined.

Lemma create_succeeds_iff_witness :
  exists role,
    fst (create sampleCatalog adminContext createReader sampleStore) = inr role.
Proof.
  apply (proj1 (create_succeeds_iff sampleCatalog adminContext createReader
                  sampleStore)).
  split; [now apply sample_allValid |].
  exists defaultChannel, (IdNum 1),
    {| user_id := IdNum 1; user_roles := [superAdminRole] |}.
  split; [reflexivity |]. split; [reflexivity |]. split; [reflexivity |].
  exists superAdminRole. split; [now left |]. split.
  - exists defaultChannel. split; [now left | reflexivity].
  - now apply sample_In.
Defined.

Lemma create_unknown_user_witness :
  allValid sampleCatalog (create_permissions createReader) /\
  findUser (IdNum 42) sampleStore = None /\
  create sampleCatalog strangerContext createReader sampleStore
  = (inl (EntityNotFoundError "User" (IdNum 42)), sampleStore).
Proof.
  assert (Hv : allValid sampleCatalog (create_permissions createReader))
    by now apply sample_allValid.
  split; [exact Hv |]. split; [reflexivity |].
  exact (create_unknown_user sampleCatalog strangerContext createReader
           sampleStore defaultChannel (IdNum 42) Hv eq_refl eq_refl eq_refl).
Defined.

Lemma editor_may_not_create :
  ~ mayCreateOn (IdNum 1) {| user_id := IdNum 2; user_roles := [editorRole] |}.
Proof.
  intros [r [[Hr | []] [_ Hp]]]. subst r.
  revert Hp. now apply sample_not_In.
Qed.

Lemma create_forbidden_witness :
  allValid sampleCatalog (create_permissions createReader) /\
  findUser (IdNum 2) sampleStore
  = Some {| user_id := IdNum 2; user_roles := [editorRole] |} /\
  create sampleCatalog editorContext createReader sampleStore
  = (inl ForbiddenError, sampleStore).
Proof.
  assert (Hv : allValid sampleCatalog (create_permissions createReader))
    by now apply sample_allValid.
  split; [exact Hv |]. split; [reflexivity |].
  exact (create_forbidden sampleCatalog editorContext createReader sampleStore
           defaultChannel (IdNum 2) _ Hv eq_refl eq_refl eq_refl
           editor_may_not_create).
Defined.

(** Channel 0 exists and user 0 administers it, yet the role goes to the
    channel of the request, and user 0 is refused. *)
Lemma create_falsy_ids_witness :
  falsy (create_channelId createOnChannelZero) /\
  falsy (ctx_activeUserId zeroContext) /\
  findChannel (IdNum 0) zeroStore = Some zeroChannel /\
  create sampleCatalog adminContext createOnChannelZero zeroStore
  = create sampleCatalog adminContext createReader zeroStore /\
  create sampleCatalog zeroContext createReader zeroStore
  = (inl ForbiddenError, zeroStore).
Proof.
  assert (Hc : falsy (create_channelId createOnChannelZero))
    by (right; left; reflexivity).
  assert (Hu : falsy (ctx_activeUserId zeroContext))
    by (right; left; reflexivity).
  split; [exact Hc |]. split; [exact Hu |]. split; [reflexivity |]. split.
  - exact (proj1 (create_falsy_ids sampleCatalog adminContext
                    createOnChannelZero zeroStore) Hc).
  - apply (proj2 (create_falsy_ids sampleCatalog zeroContext createReader
                    zeroStore) Hu) with defaultChannel.
    + now apply sample_allValid.
    + reflexivity.
Defined.

Lemma update_missing_role_witness :
  find (hasId (update_id missingUpdate)) (store_roles sampleStore) = None /\
  update sampleCatalog superAdminCode customerCode missingUpdate sampleStore
  = (inl (EntityNotFoundError "Role" (IdNum 77)), sampleStore).
Proof.
  split; [reflexivity |].
  apply update_missing_role; [| reflexivity].
  intros ps E. inversion E; subst ps. now apply sample_allValid.
Defined.

Lemma update_keeps_system_roles_witness :
  In customerRole (store_roles sampleStore) /\
  isSystemRole superAdminCode customerCode customerRole /\
  In customerRole
    (store_roles
       (snd (update sampleCatalog superAdminCode customerCode editorUpdate
               sampleStore))).
Proof.
  assert (Hin : In customerRole (store_roles sampleStore))
    by (right; now left).
  assert (Hsys : isSystemRole superAdminCode customerCode customerRole)
    by (right; reflexivity).
  split; [exact Hin |]. split; [exact Hsys |].
  exact (update_keeps_system_roles sampleCatalog superAdminCode customerCode
           editorUpdate sampleStore customerRole Hin Hsys).
Defined.

Lemma update_twice_witness :
  find (hasId (update_id editorUpdate)) (store_roles sampleStore)
  = Some editorRole /\
  ~ isSystemRole superAdminCode customerCode editorRole /\
  store_roles
    (snd (update sampleCatalog superAdminCode customerCode editorUpdate
            (snd (update sampleCatalog superAdminCode customerCode editorUpdate
                    sampleStore))))
  = store_roles
      (snd (update sampleCatalog superAdminCode customerCode editorUpdate
              sampleStore)).
Proof.
  assert (Hnot : ~ isSystemRole superAdminCode customerCode editorRole)
    by (intros [H | H]; discriminate).
  split; [reflexivity |]. split; [exact Hnot |].
  apply (update_twice sampleCatalog superAdminCode customerCode editorUpdate
           sampleStore editorRole).
  - intros ps E. inversion E; subst ps. now apply sample_allValid.
  - reflexivity.
  - exact Hnot.
  - intros c E. discriminate.
Defined.

Lemma storeInCatalog_preserved_witness :
  In Permission_Authenticated sampleCatalog /\
  storeInCatalog sampleCatalog sampleStore /\
  storeInCatalog sampleCatalog
    (snd (create sampleCatalog adminContext createReader sampleStore)).
Proof.
  assert (HA : In Permission_Authenticated sampleCatalog) by now left.
  split; [exact HA |]. split; [exact sample_storeInCatalog |].
  exact (proj1 (storeInCatalog_preserved sampleCatalog superAdminCode
                  superAdminDescription customerCode customerDescription
                  sampleStore HA sample_storeInCatalog)
           adminContext createReader).
Defined.

Lemma getRoleByCode_after_create_witness :
  exists role,
    fst (create sampleCatalog adminContext createReader sampleStore) = inr role /\
    getRoleByCode "catalog-reader"
      (snd (create sampleCatalog adminContext createReader sampleStore))
    = (inr (Some role),
       snd (create sampleCatalog adminContext createReader sampleStore)).
Proof.
  eexists. split; [reflexivity |].
  exact (proj1 (getRoleByCode_after_create sampleCatalog adminContext
                  createReader sampleStore _ eq_refl eq_refl)).
Defined.

Lemma checkPermissionsAreValid_iff_witness :
  checkPermissionsAreValid sampleCatalog (Some ["ReadCatalog"; "Owner"])
    sampleStore = (inr tt, sampleStore).
Proof.
  apply (proj1 (checkPermissionsAreValid_iff sampleCatalog
                  (Some ["ReadCatalog"; "Owner"]) sampleStore)).
  intros ps E. inversion E; subst ps. now apply sample_allValid.
Defined.

Lemma update_grants_witness :
  find (hasId (update_id editorUpdate)) (store_roles sampleStore)
  = Some editorRole /\
  userHasPermissionOnChannel (IdNum 2) (IdNum 1) "UpdateCatalog" sampleStore
  = (inr false, sampleStore) /\
  userHasPermissionOnChannel (IdNum 2) (IdNum 1) "UpdateCatalog"
    (snd (update sampleCatalog superAdminCode customerCode editorUpdate
            sampleStore))
  = (inr true,
     snd (update sampleCatalog superAdminCode customerCode editorUpdate
            sampleStore)).
Proof.
  split; [reflexivity |]. split; [reflexivity |].
  apply (update_grants sampleCatalog superAdminCode customerCode editorUpdate
           sampleStore editorRole ["UpdateCatalog"; "UpdateCatalog"]
           {| userRow_id := IdNum 2; userRow_roleIds := [IdNum 3] |}
           (IdNum 2) defaultChannel "UpdateCatalog").
  - reflexivity.
  - now apply sample_allValid.
  - reflexivity.
  - intros [H | H]; discriminate.
  - reflexivity.
  - now left.
  - now left.
  - right. now left.
Defined.

Lemma initRoles_keeps_other_roles_witness :
  NoDup (map role_id (store_roles agedStore)) /\
  In editorRole (store_roles agedStore) /\
  In editorRole
    (store_roles
       (snd (initRoles sampleCatalog superAdminCode superAdminDescription
               customerCode customerDescription agedStore))) /\
  ~ In legacySuperAdminRole
      (store_roles
         (snd (initRoles sampleCatalog superAdminCode superAdminDescription
                 customerCode customerDescription agedStore))).
Proof.
  assert (Hnd : NoDup (map role_id (store_roles agedStore))).
  { simpl. repeat constructor; simpl; intuition discriminate. }
  assert (Hin : In editorRole (store_roles agedStore))
    by (right; right; now left).
  split; [exact Hnd |]. split; [exact Hin |]. split.
  - apply (initRoles_keeps_other_roles sampleCatalog superAdminCode
             superAdminDescription customerCode customerDescription agedStore
             editorRole Hnd Hin).
    discriminate.
  - vm_compute. intros [H | [H | [H | []]]]; discriminate.
Defined.
